(** * tiny_ffmpeg: task lifecycle, duration matching and output retention

    A shallow embedding of [main.py]: the task store ([save_task],
    [get_task], [update_task_status]), the retention pass
    ([cleanup_old_files]), the two background workers
    ([process_merge_video_audio], [process_replace_audio]) and the three
    routes that schedule them.

    Python state (the [tasks] dict, the four directories, the global
    [MAX_OUTPUT_FILES]) is one record threaded through a state-and-exception
    monad.  MoviePy is not part of the repository: clips are symbolic values
    (source path, operations applied, duration) and the calls that touch the
    disk ([VideoFileClip], [AudioFileClip], [write_videofile]) ask an
    [engine] oracle whether they raise.  Durations are exact rationals. *)

From Stdlib Require Import QArith Qround ZArith Lia Lqa String Ascii.
From stdpp Require Import gmap strings list fin_maps.

Local Open Scope string_scope.
Local Open Scope list_scope.

(** ** Data model *)

(** [class TaskStatus(str, Enum)] *)
Inductive TaskStatus := PENDING | PROCESSING | SUCCESS | FAILED.

Definition TaskStatus_value (s : TaskStatus) : string :=
  match s with
  | PENDING => "pending"
  | PROCESSING => "processing"
  | SUCCESS => "success"
  | FAILED => "failed"
  end.

#[global] Instance TaskStatus_eq_dec : EqDecision TaskStatus.
Proof. solve_decision. Defined.

(** The task dictionary built by the routes; the three last keys are absent
    until a worker adds them through [update_task_status]. *)
Record task_data := {
  td_task_id : string;
  td_type : string;
  td_status : TaskStatus;
  td_created_at : Z;
  td_updated_at : Z;
  td_video_filename : string;
  td_audio_filename : string;
  td_message : string;
  td_output_file : option string;
  td_file_size : option Z;
  td_error : option string
}.

(** The keyword arguments [update_task_status] is called with. *)
Record kwargs := {
  kw_message : option string;
  kw_output_file : option string;
  kw_file_size : option Z;
  kw_error : option string
}.

Definition kw (message : string) : kwargs :=
  {| kw_message := Some message; kw_output_file := None;
     kw_file_size := None; kw_error := None |}.

(** [task_data['status'] = status; task_data['updated_at'] = ...;
    task_data.update(kwargs)] *)
Definition dict_update (d : task_data) (status : TaskStatus) (t : Z)
    (k : kwargs) : task_data :=
  {| td_task_id := td_task_id d;
     td_type := td_type d;
     td_status := status;
     td_created_at := td_created_at d;
     td_updated_at := t;
     td_video_filename := td_video_filename d;
     td_audio_filename := td_audio_filename d;
     td_message := default (td_message d) (kw_message k);
     td_output_file :=
       match kw_output_file k with Some f => Some f | None => td_output_file d end;
     td_file_size :=
       match kw_file_size k with Some n => Some n | None => td_file_size d end;
     td_error :=
       match kw_error k with Some e => Some e | None => td_error d end |}.

(** A file of [OUTPUT_DIR] as [glob] and [stat] show it.  [locked] files are
    those whose [unlink] raises. *)
Record file_entry := {
  fname : string;
  is_file : bool;
  st_ctime : Z;
  st_size : Z;
  locked : bool
}.

(** Symbolic MoviePy clips. *)
Inductive clip_op :=
| Loop (n : Z)
| Subclip (t_start t_end : Q).

Inductive media := Video | Audio.

#[global] Instance media_eq_dec : EqDecision media.
Proof. solve_decision. Defined.

Record clip := {
  clip_source : string;
  clip_kind : media;
  clip_ops : list clip_op;
  duration : Q
}.

(** [video_clip.set_audio(audio_clip)] *)
Record composite := {
  comp_video : clip;
  comp_audio : clip
}.

(** An open file reader of the engine: which kind, on which path. *)
Definition reader : Type := media * string.

Inductive engine_call :=
| CallVideoFileClip (path : string)
| CallAudioFileClip (path : string)
| CallLoop (c : clip) (n : Z)
| CallSubclip (c : clip) (t_start t_end : Q)
| CallWriteVideofile (c : composite) (output : string)
| CallClose (released : list reader).

(** What the engine does where the source cannot decide it: the measured
    duration of an input ([None]: the constructor raises) and the size of
    the file [write_videofile] produces ([None]: it raises). *)
Record engine := {
  video_probe : string -> option Q;
  audio_probe : string -> option Q;
  encode : composite -> option Z
}.

Inductive background_fn :=
| process_merge_video_audio_fn
| process_replace_audio_fn.

#[global] Instance background_fn_eq_dec : EqDecision background_fn.
Proof. solve_decision. Defined.

(** One [background_tasks.add_task(fn, task_id, video_path, audio_path)]. *)
Record job := {
  job_fn : background_fn;
  job_task_id : string;
  job_video_path : string;
  job_audio_path : string
}.

(** The process state.  [journal] records every record [save_task] persists,
    in order; [readers] are the file readers the engine holds open. *)
Record world := {
  tasks : gmap string task_data;
  TASKS_DIR : gmap string task_data;
  OUTPUT_DIR : list file_entry;
  TEMP_DIR : gset string;
  MAX_OUTPUT_FILES : nat;
  clock : Z;
  readers : list reader;
  engine_log : list engine_call;
  journal : list (string * task_data);
  background_tasks : list job
}.

Definition set_tasks (f : gmap string task_data -> gmap string task_data)
    (w : world) : world :=
  {| tasks := f (tasks w); TASKS_DIR := TASKS_DIR w; OUTPUT_DIR := OUTPUT_DIR w;
     TEMP_DIR := TEMP_DIR w; MAX_OUTPUT_FILES := MAX_OUTPUT_FILES w;
     clock := clock w; readers := readers w; engine_log := engine_log w;
     journal := journal w; background_tasks := background_tasks w |}.

Definition set_TASKS_DIR (f : gmap string task_data -> gmap string task_data)
    (w : world) : world :=
  {| tasks := tasks w; TASKS_DIR := f (TASKS_DIR w); OUTPUT_DIR := OUTPUT_DIR w;
     TEMP_DIR := TEMP_DIR w; MAX_OUTPUT_FILES := MAX_OUTPUT_FILES w;
     clock := clock w; readers := readers w; engine_log := engine_log w;
     journal := journal w; background_tasks := background_tasks w |}.

Definition set_OUTPUT_DIR (f : list file_entry -> list file_entry)
    (w : world) : world :=
  {| tasks := tasks w; TASKS_DIR := TASKS_DIR w; OUTPUT_DIR := f (OUTPUT_DIR w);
     TEMP_DIR := TEMP_DIR w; MAX_OUTPUT_FILES := MAX_OUTPUT_FILES w;
     clock := clock w; readers := readers w; engine_log := engine_log w;
     journal := journal w; background_tasks := background_tasks w |}.

Definition set_TEMP_DIR (f : gset string -> gset string) (w : world) : world :=
  {| tasks := tasks w; TASKS_DIR := TASKS_DIR w; OUTPUT_DIR := OUTPUT_DIR w;
     TEMP_DIR := f (TEMP_DIR w); MAX_OUTPUT_FILES := MAX_OUTPUT_FILES w;
     clock := clock w; readers := readers w; engine_log := engine_log w;
     journal := journal w; background_tasks := background_tasks w |}.

Definition set_clock (f : Z -> Z) (w : world) : world :=
  {| tasks := tasks w; TASKS_DIR := TASKS_DIR w; OUTPUT_DIR := OUTPUT_DIR w;
     TEMP_DIR := TEMP_DIR w; MAX_OUTPUT_FILES := MAX_OUTPUT_FILES w;
     clock := f (clock w); readers := readers w; engine_log := engine_log w;
     journal := journal w; background_tasks := background_tasks w |}.

Definition set_readers (f : list reader -> list reader) (w : world) : world :=
  {| tasks := tasks w; TASKS_DIR := TASKS_DIR w; OUTPUT_DIR := OUTPUT_DIR w;
     TEMP_DIR := TEMP_DIR w; MAX_OUTPUT_FILES := MAX_OUTPUT_FILES w;
     clock := clock w; readers := f (readers w); engine_log := engine_log w;
     journal := journal w; background_tasks := background_tasks w |}.

Definition set_engine_log (f : list engine_call -> list engine_call)
    (w : world) : world :=
  {| tasks := tasks w; TASKS_DIR := TASKS_DIR w; OUTPUT_DIR := OUTPUT_DIR w;
     TEMP_DIR := TEMP_DIR w; MAX_OUTPUT_FILES := MAX_OUTPUT_FILES w;
     clock := clock w; readers := readers w; engine_log := f (engine_log w);
     journal := journal w; background_tasks := background_tasks w |}.

Definition set_journal
    (f : list (string * task_data) -> list (string * task_data))
    (w : world) : world :=
  {| tasks := tasks w; TASKS_DIR := TASKS_DIR w; OUTPUT_DIR := OUTPUT_DIR w;
     TEMP_DIR := TEMP_DIR w; MAX_OUTPUT_FILES := MAX_OUTPUT_FILES w;
     clock := clock w; readers := readers w; engine_log := engine_log w;
     journal := f (journal w); background_tasks := background_tasks w |}.

Definition set_background_tasks (f : list job -> list job) (w : world) : world :=
  {| tasks := tasks w; TASKS_DIR := TASKS_DIR w; OUTPUT_DIR := OUTPUT_DIR w;
     TEMP_DIR := TEMP_DIR w; MAX_OUTPUT_FILES := MAX_OUTPUT_FILES w;
     clock := clock w; readers := readers w; engine_log := engine_log w;
     journal := journal w; background_tasks := f (background_tasks w) |}.

(** ** State and exceptions *)

Inductive exn :=
| Exception (msg : string)
| HTTPException (status_code : nat) (detail : string).

(** [str(e)] *)
Definition str (e : exn) : string :=
  match e with
  | Exception msg => msg
  | HTTPException _ detail => detail
  end.

Inductive outcome (A : Type) :=
| Return (a : A)
| Raise (e : exn).
Arguments Return {A} a.
Arguments Raise {A} e.

Definition M (A : Type) : Type := world -> outcome A * world.

Definition ret {A} (a : A) : M A := fun w => (Return a, w).

Definition raise {A} (e : exn) : M A := fun w => (Raise e, w).

Definition bind {A B} (m : M A) (k : A -> M B) : M B :=
  fun w =>
    match m w with
    | (Return a, w') => k a w'
    | (Raise e, w') => (Raise e, w')
    end.

Notation "'do' x <- m ; k" := (bind m (fun x => k))
  (at level 10, x name, m at level 100, k at level 200).
Notation "'run' m ; k" := (bind m (fun _ => k))
  (at level 10, m at level 100, k at level 200).

(** [try: m  except Exception as e: handler e] *)
Definition try_except {A} (m : M A) (handler : exn -> M A) : M A :=
  fun w =>
    match m w with
    | (Return a, w') => (Return a, w')
    | (Raise e, w') => handler e w'
    end.

(** [try: m  finally: fin]; an exception of [fin] replaces the outcome. *)
Definition try_finally {A} (m : M A) (fin : M unit) : M A :=
  fun w =>
    match m w with
    | (r, w') =>
        match fin w' with
        | (Return _, w'') => (r, w'')
        | (Raise e, w'') => (Raise e, w'')
        end
    end.

Definition modify (f : world -> world) : M unit := fun w => (Return tt, f w).

Definition gets {A} (f : world -> A) : M A := fun w => (Return (f w), w).

Fixpoint for_each {A} (l : list A) (body : A -> M unit) : M unit :=
  match l with
  | [] => ret tt
  | x :: l' => run body x; for_each l' body
  end.

(** [datetime.now()]: successive readings differ. *)
Definition now : M Z :=
  fun w => (Return (clock w), set_clock Z.succ w).

(** ** Task store *)

(** [save_task]: the JSON file is written, then the cache entry is set;
    nothing is checked beforehand. *)
Definition save_task (task_id : string) (task_data : task_data) : M unit :=
  modify (fun w =>
    set_journal (fun j => j ++ [(task_id, task_data)])
      (set_tasks <[task_id := task_data]>
        (set_TASKS_DIR <[task_id := task_data]> w))).

Definition get_task (task_id : string) : M (option task_data) :=
  fun w =>
    match tasks w !! task_id with
    | Some d => (Return (Some d), w)
    | None =>
        match TASKS_DIR w !! task_id with
        | Some d => (Return (Some d), set_tasks <[task_id := d]> w)
        | None => (Return None, w)
        end
    end.

Definition update_task_status (task_id : string) (status : TaskStatus)
    (k : kwargs) : M unit :=
  do task_data <- get_task task_id;
  match task_data with
  | Some d =>
      do t <- now;
      save_task task_id (dict_update d status t k)
  | None => ret tt
  end.

(** ** Strings and paths *)

(** [s.startswith(p)] *)
Definition startswith (p s : string) : bool := String.prefix p s.

(** [s.split(c, 1)[1]]: what follows the first [c]; [None] when the list
    has one element only (an [IndexError] in Python). *)
Fixpoint split1_snd (c : ascii) (s : string) : option string :=
  match s with
  | EmptyString => None
  | String a s' => if Ascii.eqb a c then Some s' else split1_snd c s'
  end.

(** [name.rfind(c)] *)
Fixpoint rfind (c : ascii) (name : string) : option nat :=
  match name with
  | EmptyString => None
  | String a s' =>
      match rfind c s' with
      | Some i => Some (S i)
      | None => if Ascii.eqb a c then Some 0%nat else None
      end
  end.

(** [pathlib]'s split of a file name (a single path component) at its last
    dot: no suffix when the dot is the first or the last character. *)
Definition has_suffix_at (name : string) : option nat :=
  match rfind "." name with
  | Some i =>
      if (0 <? i)%nat && (i <? String.length name - 1)%nat then Some i else None
  | None => None
  end.

(** [Path(name).stem] *)
Definition stem (name : string) : string :=
  match has_suffix_at name with
  | Some i => substring 0 i name
  | None => name
  end.

(** [Path(name).suffix] *)
Definition suffix (name : string) : string :=
  match has_suffix_at name with
  | Some i => substring i (String.length name - i) name
  | None => ""
  end.

Definition lower_ascii (a : ascii) : ascii :=
  let n := nat_of_ascii a in
  if (65 <=? n)%nat && (n <=? 90)%nat then ascii_of_nat (n + 32) else a.

(** [s.lower()] on ASCII names *)
Fixpoint lower (s : string) : string :=
  match s with
  | EmptyString => EmptyString
  | String a s' => String (lower_ascii a) (lower s')
  end.

(** ** Retention: [cleanup_old_files] *)

(** [output_files.sort(key=lambda x: x[1], reverse=True)]: Python's sort is
    stable, also with [reverse=True]. *)
Fixpoint insert_newest_first (x : file_entry * Z) (l : list (file_entry * Z))
    : list (file_entry * Z) :=
  match l with
  | [] => [x]
  | y :: l' =>
      if (x.2 <? y.2)%Z then y :: insert_newest_first x l' else x :: l
  end.

Definition sort_newest_first (l : list (file_entry * Z)) : list (file_entry * Z) :=
  foldr insert_newest_first [] l.

(** [for file_path in OUTPUT_DIR.glob("*"): if file_path.is_file(): ...] *)
Definition glob_output_files (w : world) : list (file_entry * Z) :=
  (fun e => (e, st_ctime e)) <$> filter (fun e => is_file e = true) (OUTPUT_DIR w).

(** [file_path.unlink()] in [OUTPUT_DIR] *)
Definition unlink_output (name : string) : M unit :=
  fun w =>
    match list_find (fun e => fname e = name) (OUTPUT_DIR w) with
    | None => (Raise (Exception "No such file or directory"), w)
    | Some (_, e) =>
        if locked e then (Raise (Exception "Permission denied"), w)
        else (Return tt, set_OUTPUT_DIR (filter (fun e => fname e ≠ name)) w)
    end.

(** The body of the [for] loop of [cleanup_old_files], without its [try].
    [filename.split('_', 1)[1]] is what follows the first underscore. *)
Definition delete_old_file (file_path : file_entry) : M unit :=
  run unlink_output (fname file_path);
  let filename := stem (fname file_path) in
  if startswith "merged_" filename || startswith "replaced_audio_" filename then
    match split1_snd "_" filename with
    | None => raise (Exception "list index out of range")
    | Some task_id =>
        do task_file_exists <-
          gets (fun w => bool_decide (is_Some (TASKS_DIR w !! task_id)));
        if task_file_exists : bool then
          run modify (set_TASKS_DIR (delete task_id));
          do cached <- gets (fun w => bool_decide (is_Some (tasks w !! task_id)));
          if cached : bool then modify (set_tasks (delete task_id)) else ret tt
        else ret tt
    end
  else ret tt.

Definition cleanup_old_files : M unit :=
  try_except
    (do output_files <- gets glob_output_files;
     let output_files := sort_newest_first output_files in
     do max_output_files <- gets MAX_OUTPUT_FILES;
     if (max_output_files <? length output_files)%nat then
       let files_to_delete := drop max_output_files output_files in
       for_each files_to_delete (fun '(file_path, _) =>
         try_except (delete_old_file file_path) (fun _ => ret tt))
     else ret tt)
    (fun _ => ret tt).

(** ** The engine, as the workers call it *)

Definition Qltb (x y : Q) : bool := negb (Qle_bool y x).

(** Python's [x / y] on floats raises on a zero divisor. *)
Definition py_div (x y : Q) : M Q :=
  if Qeq_bool y 0 then raise (Exception "float division by zero")
  else ret (x / y)%Q.

(** Python's [int(x)]: truncation toward zero. *)
Definition py_int (x : Q) : Z := Z.quot (Qnum x) (Z.pos (Qden x)).

Definition log_call (c : engine_call) : M unit :=
  modify (set_engine_log (fun l => l ++ [c])).

(** [clip.loop(n)]: [n] repetitions end to end. *)
Definition clip_loop (c : clip) (n : Z) : M clip :=
  run log_call (CallLoop c n);
  ret {| clip_source := clip_source c; clip_kind := clip_kind c;
         clip_ops := clip_ops c ++ [Loop n];
         duration := (inject_Z n * duration c)%Q |}.

(** [clip.subclip(t_start, t_end)] *)
Definition subclip (c : clip) (t_start t_end : Q) : M clip :=
  run log_call (CallSubclip c t_start t_end);
  ret {| clip_source := clip_source c; clip_kind := clip_kind c;
         clip_ops := clip_ops c ++ [Subclip t_start t_end];
         duration := (t_end - t_start)%Q |}.

Definition set_audio (video_clip audio_clip : clip) : composite :=
  {| comp_video := video_clip; comp_audio := audio_clip |}.

Definition reader_of (c : clip) : reader := (clip_kind c, clip_source c).

(** [clip.close()]: releases the readers the clip holds; a derived clip
    shares the readers of the clip it was made from. *)
Class Close (A : Type) := close : A -> M unit.

#[global] Instance close_clip : Close clip := fun c =>
  run log_call (CallClose [reader_of c]);
  modify (set_readers (filter (fun r => r ≠ reader_of c))).

#[global] Instance close_composite : Close composite := fun c =>
  run log_call (CallClose [reader_of (comp_video c); reader_of (comp_audio c)]);
  modify (set_readers (filter (fun r =>
    r ≠ reader_of (comp_video c) ∧ r ≠ reader_of (comp_audio c)))).

Section Workers.

Variable eng : engine.

Definition VideoFileClip (path : string) : M clip :=
  run log_call (CallVideoFileClip path);
  match video_probe eng path with
  | Some d =>
      run modify (set_readers (fun l => l ++ [(Video, path)]));
      ret {| clip_source := path; clip_kind := Video; clip_ops := [];
             duration := d |}
  | None => raise (Exception ("MoviePy error: failed to read " +:+ path))
  end.

Definition AudioFileClip (path : string) : M clip :=
  run log_call (CallAudioFileClip path);
  match audio_probe eng path with
  | Some d =>
      run modify (set_readers (fun l => l ++ [(Audio, path)]));
      ret {| clip_source := path; clip_kind := Audio; clip_ops := [];
             duration := d |}
  | None => raise (Exception ("MoviePy error: failed to read " +:+ path))
  end.

(** [final_clip.write_videofile(str(output_path), ...)]: on success the
    file is created in [OUTPUT_DIR], replacing one of the same name. *)
Definition write_videofile (final_clip : composite) (output : string) : M unit :=
  run log_call (CallWriteVideofile final_clip output);
  match encode eng final_clip with
  | Some size =>
      do t <- now;
      modify (set_OUTPUT_DIR (fun d =>
        filter (fun e => fname e ≠ output) d ++
        [{| fname := output; is_file := true; st_ctime := t; st_size := size;
            locked := false |}]))
  | None => raise (Exception ("MoviePy error: failed to write " +:+ output))
  end.

(** [output_path.stat().st_size if output_path.exists() else 0] *)
Definition output_size (output : string) : M Z :=
  gets (fun w =>
    match list_find (fun e => fname e = output) (OUTPUT_DIR w) with
    | Some (_, e) => st_size e
    | None => 0%Z
    end).

(** [if path.exists(): path.unlink()] in [TEMP_DIR] *)
Definition unlink_temp_if_exists (path : string) : M unit :=
  do present <- gets (fun w => bool_decide (path ∈ TEMP_DIR w));
  if present : bool then modify (set_TEMP_DIR (fun s => s ∖ {[path]})) else ret tt.

(** The [finally] block shared by both workers. *)
Definition cleanup_temp_files (video_path audio_path : string) : M unit :=
  try_except
    (run unlink_temp_if_exists video_path;
     unlink_temp_if_exists audio_path)
    (fun _ => ret tt).

(** Lines 156-169 of [process_merge_video_audio]: the clips after the
    duration matching. *)
Definition merge_match_durations (task_id : string) (video_clip audio_clip : clip)
    : M (clip * clip) :=
  let video_duration := duration video_clip in
  let audio_duration := duration audio_clip in
  if Qltb video_duration audio_duration then
    run update_task_status task_id PROCESSING
          (kw "Audio is longer - looping video to match");
    do ratio <- py_div audio_duration video_duration;
    let loops_needed := (py_int ratio + 1)%Z in
    do looped <- clip_loop video_clip loops_needed;
    do video_clip <- subclip looped 0 audio_duration;
    ret (video_clip, audio_clip)
  else if Qltb audio_duration video_duration then
    run update_task_status task_id PROCESSING
          (kw "Video is longer - trimming to match audio");
    do video_clip <- subclip video_clip 0 audio_duration;
    ret (video_clip, audio_clip)
  else
    run update_task_status task_id PROCESSING
          (kw "Video and audio durations match");
    ret (video_clip, audio_clip).

(** Lines 238-251 of [process_replace_audio]. *)
Definition replace_match_durations (task_id : string) (video_clip audio_clip : clip)
    : M (clip * clip) :=
  let video_duration := duration video_clip in
  let audio_duration := duration audio_clip in
  if Qltb video_duration audio_duration then
    run update_task_status task_id PROCESSING
          (kw "Audio is longer - looping video to match");
    do ratio <- py_div audio_duration video_duration;
    let loops_needed := (py_int ratio + 1)%Z in
    do looped <- clip_loop video_clip loops_needed;
    do video_clip <- subclip looped 0 audio_duration;
    ret (video_clip, audio_clip)
  else if Qltb audio_duration video_duration then
    run update_task_status task_id PROCESSING
          (kw "Video is longer - looping audio to match");
    do ratio <- py_div video_duration audio_duration;
    let loops_needed := (py_int ratio + 1)%Z in
    do looped <- clip_loop audio_clip loops_needed;
    do audio_clip <- subclip looped 0 video_duration;
    ret (video_clip, audio_clip)
  else
    run update_task_status task_id PROCESSING
          (kw "Video and audio durations match");
    ret (video_clip, audio_clip).

Definition process_merge_video_audio (task_id video_path audio_path : string)
    : M unit :=
  try_finally
    (try_except
      (run update_task_status task_id PROCESSING
             (kw "Loading video and audio files");
       do video_clip <- VideoFileClip video_path;
       do audio_clip <- AudioFileClip audio_path;
       do matched <- merge_match_durations task_id video_clip audio_clip;
       let video_clip := matched.1 in
       let audio_clip := matched.2 in
       let final_clip := set_audio video_clip audio_clip in
       let output_path := "merged_" +:+ task_id +:+ ".mp4" in
       run update_task_status task_id PROCESSING
             (kw "Writing merged video file");
       run write_videofile final_clip output_path;
       run close video_clip;
       run close audio_clip;
       run close final_clip;
       do file_size <- output_size output_path;
       run update_task_status task_id SUCCESS
             {| kw_message := Some "Video merge completed successfully";
                kw_output_file := Some ("merged_" +:+ task_id +:+ ".mp4");
                kw_file_size := Some file_size;
                kw_error := None |};
       cleanup_old_files)
      (fun e =>
         let error_msg := "Error processing merge: " +:+ str e in
         update_task_status task_id FAILED
           {| kw_message := Some error_msg; kw_output_file := None;
              kw_file_size := None; kw_error := Some (str e) |}))
    (cleanup_temp_files video_path audio_path).

Definition process_replace_audio (task_id video_path audio_path : string)
    : M unit :=
  try_finally
    (try_except
      (run update_task_status task_id PROCESSING
             (kw "Loading video and audio files");
       do video_clip <- VideoFileClip video_path;
       do audio_clip <- AudioFileClip audio_path;
       do matched <- replace_match_durations task_id video_clip audio_clip;
       let video_clip := matched.1 in
       let audio_clip := matched.2 in
       let final_clip := set_audio video_clip audio_clip in
       let output_path := "replaced_audio_" +:+ task_id +:+ ".mp4" in
       run update_task_status task_id PROCESSING
             (kw "Writing video with replaced audio");
       run write_videofile final_clip output_path;
       run close video_clip;
       run close audio_clip;
       run close final_clip;
       do file_size <- output_size output_path;
       run update_task_status task_id SUCCESS
             {| kw_message := Some "Audio replacement completed successfully";
                kw_output_file := Some ("replaced_audio_" +:+ task_id +:+ ".mp4");
                kw_file_size := Some file_size;
                kw_error := None |};
       cleanup_old_files)
      (fun e =>
         let error_msg := "Error processing audio replacement: " +:+ str e in
         update_task_status task_id FAILED
           {| kw_message := Some error_msg; kw_output_file := None;
              kw_file_size := None; kw_error := Some (str e) |}))
    (cleanup_temp_files video_path audio_path).

(** What the background runner does with a scheduled job. *)
Definition run_job (j : job) : M unit :=
  match job_fn j with
  | process_merge_video_audio_fn =>
      process_merge_video_audio (job_task_id j) (job_video_path j) (job_audio_path j)
  | process_replace_audio_fn =>
      process_replace_audio (job_task_id j) (job_video_path j) (job_audio_path j)
  end.

End Workers.

(** ** Routes *)

(** An [UploadFile]: its name, and whether its content can be read and
    stored ([false]: the copy raises). *)
Record UploadFile := {
  filename : option string;
  readable : bool
}.

(** The JSON object a route answers with. *)
Record response := {
  resp_task_id : string;
  resp_status : TaskStatus;
  resp_message : string;
  resp_created_at : Z
}.

Definition video_extensions : list string :=
  [".mp4"; ".avi"; ".mov"; ".mkv"; ".wmv"; ".flv"].

Definition audio_extensions : list string :=
  [".mp3"; ".wav"; ".aac"; ".m4a"; ".ogg"; ".flac"].

(** [x in extensions] *)
Definition is_in (x : string) (l : list string) : bool := bool_decide (x ∈ l).

(** ['.' in name] *)
Definition has_dot (name : string) : bool := bool_decide (is_Some (rfind "." name)).

(** [Path(file.filename).suffix.lower()]; [Path(None)] raises. *)
Definition suffix_lower (name : option string) : M string :=
  match name with
  | Some n => ret (lower (suffix n))
  | None => raise (Exception "expected str, bytes or os.PathLike object, not NoneType")
  end.

(** [with open(path, "wb") as buffer: copy(file, buffer)] in [TEMP_DIR] *)
Definition save_upload (path : string) (file : UploadFile) : M unit :=
  run modify (set_TEMP_DIR (fun s => s ∪ {[path]}));
  if readable file then ret tt else raise (Exception "error reading upload").

(** The [except] block shared by the three routes. *)
Definition abort_task_creation (temp_video_path temp_audio_path : string)
    (e : exn) : M response :=
  run try_except
        (run unlink_temp_if_exists temp_video_path;
         unlink_temp_if_exists temp_audio_path)
        (fun _ => ret tt);
  raise (HTTPException 500 ("Error creating task: " +:+ str e)).

(** The [try] block shared by the three routes, from the temporary files
    on: they differ in the task type, the messages and the worker. *)
Definition create_task (task_id type : string) (worker : background_fn)
    (temp_video_path temp_audio_path : string)
    (video_filename audio_filename : string) (video_file audio_file : UploadFile)
    (created_message response_message : string) : M response :=
  try_except
    (run save_upload temp_video_path video_file;
     run save_upload temp_audio_path audio_file;
     do created_at <- now;
     do updated_at <- now;
     let task_data :=
       {| td_task_id := task_id; td_type := type; td_status := PENDING;
          td_created_at := created_at; td_updated_at := updated_at;
          td_video_filename := video_filename;
          td_audio_filename := audio_filename;
          td_message := created_message;
          td_output_file := None; td_file_size := None; td_error := None |} in
     run save_task task_id task_data;
     run modify (set_background_tasks (fun l => l ++
           [{| job_fn := worker; job_task_id := task_id;
               job_video_path := temp_video_path;
               job_audio_path := temp_audio_path |}]));
     ret {| resp_task_id := task_id; resp_status := PENDING;
            resp_message := response_message;
            resp_created_at := td_created_at task_data |})
    (abort_task_creation temp_video_path temp_audio_path).

(** The two [HTTPException(status_code=400, ...)] of the routes. *)
Definition unsupported_video : exn :=
  HTTPException 400
    "Unsupported video format. Supported formats: ['.mp4', '.avi', '.mov', '.mkv', '.wmv', '.flv']".

Definition unsupported_audio : exn :=
  HTTPException 400
    "Unsupported audio format. Supported formats: ['.mp3', '.wav', '.aac', '.m4a', '.ogg', '.flac']".

(** [POST /merge]; [task_id] is the fresh [str(uuid.uuid4())]. *)
Definition merge_video_audio (task_id : string) (video_file audio_file : UploadFile)
    : M response :=
  let video :=
    match filename video_file with
    | Some n =>
        if negb (bool_decide (n = "")) && has_dot n then
          let video_ext := lower (suffix n) in
          if negb (is_in video_ext video_extensions)
          then (".mp4", stem n +:+ ".mp4")
          else (video_ext, n)
        else (".mp4", (if bool_decide (n = "") then "video" else n) +:+ ".mp4")
    | None => (".mp4", "video" +:+ ".mp4")
    end in
  let video_ext := video.1 in
  let video_filename := video.2 in
  let audio_filename :=
    match filename audio_file with
    | Some n =>
        if negb (bool_decide (n = "")) && has_dot n then
          let audio_ext := lower (suffix n) in
          if negb (is_in audio_ext audio_extensions)
          then stem n +:+ ".mp3"
          else n
        else (if bool_decide (n = "") then "audio" else n) +:+ ".mp3"
    | None => "audio" +:+ ".mp3"
    end in
  let audio_ext := lower (suffix audio_filename) in
  if negb (is_in video_ext video_extensions) then raise unsupported_video
  else if negb (is_in audio_ext audio_extensions) then raise unsupported_audio
  else
    let temp_video_path := "video_" +:+ task_id +:+ video_ext in
    let temp_audio_path := "audio_" +:+ task_id +:+ audio_ext in
    create_task task_id "merge" process_merge_video_audio_fn
      temp_video_path temp_audio_path video_filename audio_filename
      video_file audio_file
      "Task created, waiting to start processing"
      "Task created successfully. Use /task/{task_id}/status to check progress.".

(** [POST /merge-replace-audio] *)
Definition merge_replace_audio (task_id : string) (video_file audio_file : UploadFile)
    : M response :=
  do video_ext <- suffix_lower (filename video_file);
  do audio_ext <- suffix_lower (filename audio_file);
  if negb (is_in video_ext video_extensions) then raise unsupported_video
  else if negb (is_in audio_ext audio_extensions) then raise unsupported_audio
  else
    let temp_video_path := "video_" +:+ task_id +:+ video_ext in
    let temp_audio_path := "audio_" +:+ task_id +:+ audio_ext in
    create_task task_id "replace_audio" process_replace_audio_fn
      temp_video_path temp_audio_path
      (default "" (filename video_file)) (default "" (filename audio_file))
      video_file audio_file
      "Task created, waiting to start processing"
      "Task created successfully. Use /task/{task_id}/status to check progress.".

(** [POST /loop-video-to-audio] *)
Definition loop_video_to_audio (task_id : string) (video_file audio_file : UploadFile)
    : M response :=
  do video_ext <- suffix_lower (filename video_file);
  do audio_ext <- suffix_lower (filename audio_file);
  if negb (is_in video_ext video_extensions) then raise unsupported_video
  else if negb (is_in audio_ext audio_extensions) then raise unsupported_audio
  else
    let temp_video_path := "video_" +:+ task_id +:+ video_ext in
    let temp_audio_path := "audio_" +:+ task_id +:+ audio_ext in
    create_task task_id "loop_video" process_merge_video_audio_fn
      temp_video_path temp_audio_path
      (default "" (filename video_file)) (default "" (filename audio_file))
      video_file audio_file
      "Task created, waiting to start video looping"
      "Video looping task created successfully. The video will be looped to match audio duration.".

(** The three policies of the specification and the route serving each. *)
Inductive policy := merge | replace | loop_exact.

Definition route (p : policy) : string -> UploadFile -> UploadFile -> M response :=
  match p with
  | merge => merge_video_audio
  | replace => merge_replace_audio
  | loop_exact => loop_video_to_audio
  end.

(** ** Test fixtures *)

Definition world0 : world :=
  {| tasks := ∅; TASKS_DIR := ∅; OUTPUT_DIR := []; TEMP_DIR := ∅;
     MAX_OUTPUT_FILES := 10; clock := 0; readers := []; engine_log := [];
     journal := []; background_tasks := [] |}.

Definition engine_of (v a : Q) (size : option Z) : engine :=
  {| video_probe := fun _ => Some v; audio_probe := fun _ => Some a;
     encode := fun _ => size |}.

Definition mp4 : UploadFile := {| filename := Some "clip.mp4"; readable := true |}.
Definition mp3 : UploadFile := {| filename := Some "song.mp3"; readable := true |}.

(** A finished task and its artifact, for retention scenarios. *)
Definition finished_task (task_id type output : string) : task_data :=
  {| td_task_id := task_id; td_type := type; td_status := SUCCESS;
     td_created_at := 0; td_updated_at := 1;
     td_video_filename := "clip.mp4"; td_audio_filename := "song.mp3";
     td_message := "done"; td_output_file := Some output;
     td_file_size := Some 1000%Z; td_error := None |}.

Definition artifact (name : string) (ctime : Z) (is_locked : bool) : file_entry :=
  {| fname := name; is_file := true; st_ctime := ctime; st_size := 1000;
     locked := is_locked |}.

Definition finished_tasks : gmap string task_data :=
  list_to_map
    [("A", finished_task "A" "replace_audio" "replaced_audio_A.mp4");
     ("B", finished_task "B" "merge" "merged_B.mp4");
     ("C", finished_task "C" "merge" "merged_C.mp4");
     ("D", finished_task "D" "loop_video" "merged_D.mp4")].

(** Four artifacts, oldest first, under a limit of two. *)
Definition world_over_limit : world :=
  {| tasks := finished_tasks; TASKS_DIR := finished_tasks;
     OUTPUT_DIR := [artifact "replaced_audio_A.mp4" 1 false;
                    artifact "merged_B.mp4" 2 false;
                    artifact "merged_C.mp4" 3 false;
                    artifact "merged_D.mp4" 4 false];
     TEMP_DIR := ∅; MAX_OUTPUT_FILES := 2; clock := 5; readers := [];
     engine_log := []; journal := []; background_tasks := [] |}.

(** The same directory, where the oldest artifact cannot be unlinked. *)
Definition world_locked : world :=
  set_OUTPUT_DIR (fun _ =>
    [artifact "merged_C.mp4" 3 false;
     artifact "replaced_audio_A.mp4" 1 true;
     artifact "merged_D.mp4" 4 false;
     artifact "merged_B.mp4" 2 false]) world_over_limit.

(** The state after [POST /merge] accepted a request for task [T], and the
    job it scheduled. *)
Definition world_T : world := (merge_video_audio "T" mp4 mp3 world0).2.

Definition job_T : job :=
  {| job_fn := process_merge_video_audio_fn; job_task_id := "T";
     job_video_path := "video_T.mp4"; job_audio_path := "audio_T.mp3" |}.

(** The state after [POST /loop-video-to-audio] accepted the same request. *)
Definition world_L : world := (loop_video_to_audio "T" mp4 mp3 world0).2.

(** ** Policies, workers and duration matching *)

(** The worker each route hands to [background_tasks.add_task]. *)
Definition worker (p : policy) : background_fn :=
  match p with
  | merge => process_merge_video_audio_fn
  | replace => process_replace_audio_fn
  | loop_exact => process_merge_video_audio_fn
  end.

(** The duration matching a worker performs. *)
Definition match_durations (f : background_fn)
    : string -> clip -> clip -> M (clip * clip) :=
  match f with
  | process_merge_video_audio_fn => merge_match_durations
  | process_replace_audio_fn => replace_match_durations
  end.

(** The state machine of the specification:
    pending -> processing -> {success, failed}, processing re-entered. *)
Inductive status_step : TaskStatus -> TaskStatus -> Prop :=
| step_start : status_step PENDING PROCESSING
| step_progress : status_step PROCESSING PROCESSING
| step_success : status_step PROCESSING SUCCESS
| step_failed : status_step PROCESSING FAILED.

Fixpoint walk (from : TaskStatus) (l : list TaskStatus) : Prop :=
  match l with
  | [] => True
  | s :: l' => status_step from s ∧ walk s l'
  end.

Definition terminal (s : TaskStatus) : bool :=
  match s with
  | SUCCESS | FAILED => true
  | PENDING | PROCESSING => false
  end.

Definition status_rank (s : TaskStatus) : nat :=
  match s with
  | PENDING => 0
  | PROCESSING => 1
  | SUCCESS | FAILED => 2
  end.

(** Every record carries a time stamp not before [t], and later than the
    one written before it. *)
Fixpoint stamped (t : Z) (l : list (string * task_data)) : Prop :=
  match l with
  | [] => True
  | e :: l' => (t <= td_updated_at e.2)%Z ∧ stamped (td_updated_at e.2 + 1) l'
  end.

(** [l'] is [l] followed by new elements that satisfy [P]. *)
Definition appended {A} (l l' : list A) (P : list A -> Prop) : Prop :=
  ∃ new, l' = l ++ new ∧ P new.

(** The name of the artifact a worker writes. *)
Definition artifact_name (f : background_fn) (task_id : string) : string :=
  match f with
  | process_merge_video_audio_fn => "merged_" +:+ task_id +:+ ".mp4"
  | process_replace_audio_fn => "replaced_audio_" +:+ task_id +:+ ".mp4"
  end.

Definition writes_to (output : string) (c : engine_call) : Prop :=
  match c with
  | CallWriteVideofile _ out => out = output
  | _ => True
  end.

(** What a worker adds to the journal of a task it finds in the store:
    progress records, then one terminal record. *)
Definition worker_records (f : background_fn) (task_id : string) (t : Z)
    (new : list (string * task_data)) : Prop :=
  Forall (fun e => e.1 = task_id) new ∧
  (∃ k s, (fun e => td_status e.2) <$> new = replicate (S k) PROCESSING ++ [s] ∧
          terminal s = true) ∧
  stamped t new ∧
  Forall (fun e => td_status e.2 = SUCCESS ->
                   td_output_file e.2 = Some (artifact_name f task_id)) new.

(** What the temporary-file cleanup leaves untouched. *)
Definition temp_frame (w w' : world) : Prop :=
  tasks w' = tasks w ∧ TASKS_DIR w' = TASKS_DIR w ∧
  OUTPUT_DIR w' = OUTPUT_DIR w ∧ MAX_OUTPUT_FILES w' = MAX_OUTPUT_FILES w ∧
  clock w' = clock w ∧ readers w' = readers w ∧
  engine_log w' = engine_log w ∧ journal w' = journal w ∧
  background_tasks w' = background_tasks w.

(** What an accepted request leaves behind: the pending record [d0] in the
    store and in the journal, and the job [j] in the queue. *)
Definition created (task_id type : string) (j : job) (d0 : task_data)
    (w w' : world) : Prop :=
  tasks w' !! task_id = Some d0 ∧
  td_status d0 = PENDING ∧ td_type d0 = type ∧
  td_updated_at d0 = Z.succ (clock w) ∧ clock w' = Z.succ (Z.succ (clock w)) ∧
  journal w' = journal w ++ [(task_id, d0)] ∧
  engine_log w' = engine_log w ∧
  background_tasks w' = background_tasks w ++ [j].

(** The [type] each route stores in the task record. *)
Definition task_type (p : policy) : string :=
  match p with
  | merge => "merge"
  | replace => "replace_audio"
  | loop_exact => "loop_video"
  end.

(** ** Retention, as list functions *)

(** What a successful or failed [unlink] leaves of a directory listing. *)
Definition unlink_result (name : string) (dir : list file_entry)
    : list file_entry :=
  match list_find (fun e => fname e = name) dir with
  | Some (_, e) =>
      if locked e then dir else filter (fun e => fname e ≠ name) dir
  | None => dir
  end.

(** Newest first: nothing in the tail is newer than the head. *)
Fixpoint newest_first (l : list (file_entry * Z)) : Prop :=
  match l with
  | [] => True
  | y :: l' => Forall (fun z => (z.2 <= y.2)%Z) l' ∧ newest_first l'
  end.

(** The names of the files of a list that [unlink] can remove. *)
Definition removable_names (l : list (file_entry * Z)) : list string :=
  (fun p => fname p.1) <$> filter (fun p => locked p.1 = false) l.

(** What the retention pass leaves untouched. *)
Definition retention_frame (w w' : world) : Prop :=
  TEMP_DIR w' = TEMP_DIR w ∧ MAX_OUTPUT_FILES w' = MAX_OUTPUT_FILES w ∧
  clock w' = clock w ∧ readers w' = readers w ∧
  engine_log w' = engine_log w ∧ journal w' = journal w ∧
  background_tasks w' = background_tasks w.

(** ** Status, download, listing and administration routes *)

(** The JSON object [GET /task/{task_id}/status] answers with. *)
Record task_view := {
  view_task_id : string;
  view_status : TaskStatus;
  view_type : string;
  view_message : string;
  view_created_at : Z;
  view_updated_at : Z;
  view_video_filename : string;
  view_audio_filename : string;
  view_output_file : option string;
  view_file_size : option Z;
  view_error : option string
}.

(** [GET /task/{task_id}/status] *)
Definition get_task_status (task_id : string) : M task_view :=
  do task_data <- get_task task_id;
  match task_data with
  | None => raise (HTTPException 404 "Task not found")
  | Some d =>
      ret {| view_task_id := task_id;
             view_status := td_status d;
             view_type := td_type d;
             view_message := td_message d;
             view_created_at := td_created_at d;
             view_updated_at := td_updated_at d;
             view_video_filename := td_video_filename d;
             view_audio_filename := td_audio_filename d;
             view_output_file := td_output_file d;
             view_file_size := td_file_size d;
             view_error := td_error d |}
  end.

(** What [GET /task/{task_id}/download] answers for a task that has not
    succeeded: the status object without its output keys. *)
Record task_progress := {
  prog_task_id : string;
  prog_status : TaskStatus;
  prog_type : string;
  prog_message : string;
  prog_created_at : Z;
  prog_updated_at : Z;
  prog_video_filename : string;
  prog_audio_filename : string;
  prog_error : option string
}.

Inductive download_response :=
| StatusResponse (v : task_progress)
| FileResponse (path media_type filename : string).

(** [GET /task/{task_id}/download]; [output_path.exists()] looks any entry
    of [OUTPUT_DIR] up by name. *)
Definition download_task_result (task_id : string) : M download_response :=
  do task_data <- get_task task_id;
  match task_data with
  | None => raise (HTTPException 404 "Task not found")
  | Some d =>
      if negb (bool_decide (td_status d = SUCCESS)) then
        ret (StatusResponse
               {| prog_task_id := task_id;
                  prog_status := td_status d;
                  prog_type := td_type d;
                  prog_message := td_message d;
                  prog_created_at := td_created_at d;
                  prog_updated_at := td_updated_at d;
                  prog_video_filename := td_video_filename d;
                  prog_audio_filename := td_audio_filename d;
                  prog_error := td_error d |})
      else
        match td_output_file d with
        | None => raise (HTTPException 500 "Output file not found in task data")
        | Some output_file =>
            if bool_decide (output_file = "") then
              raise (HTTPException 500 "Output file not found in task data")
            else
              do on_disk <- gets (fun w =>
                bool_decide (output_file ∈ fname <$> OUTPUT_DIR w));
              if on_disk : bool then
                ret (FileResponse output_file "video/mp4" output_file)
              else raise (HTTPException 404 "Output file not found on disk")
        end
  end.

(** One element of the listing of [GET /tasks]. *)
Record task_summary := {
  sum_task_id : string;
  sum_type : string;
  sum_status : TaskStatus;
  sum_created_at : Z;
  sum_updated_at : Z;
  sum_message : string
}.

Record task_listing := {
  listing_tasks : list task_summary;
  listing_total : nat;
  listing_limit : Z;
  listing_filter_status : option TaskStatus
}.

Definition summary (d : task_data) : task_summary :=
  {| sum_task_id := td_task_id d; sum_type := td_type d;
     sum_status := td_status d; sum_created_at := td_created_at d;
     sum_updated_at := td_updated_at d; sum_message := td_message d |}.

(** [not status or task_data.get("status") == status] *)
Definition status_matches (status : option TaskStatus) (d : task_data) : bool :=
  match status with
  | None => true
  | Some s => bool_decide (td_status d = s)
  end.

(** [all_tasks.sort(key=lambda x: x["created_at"], reverse=True)], stable. *)
Fixpoint insert_latest_first (x : task_summary) (l : list task_summary)
    : list task_summary :=
  match l with
  | [] => [x]
  | y :: l' =>
      if (sum_created_at x <? sum_created_at y)%Z
      then y :: insert_latest_first x l' else x :: l
  end.

Definition sort_latest_first (l : list task_summary) : list task_summary :=
  foldr insert_latest_first [] l.

(** Python's [l[:limit]]: a negative [limit] counts from the end. *)
Definition slice_to {A} (limit : Z) (l : list A) : list A :=
  if (0 <=? limit)%Z then take (Z.to_nat limit) l
  else take (length l - Z.to_nat (- limit)) l.

(** [GET /tasks]: the task files are read from [TASKS_DIR], not from the
    cache. *)
Definition list_tasks (limit : Z) (status : option TaskStatus) : M task_listing :=
  do task_files <- gets (fun w => map_to_list (TASKS_DIR w));
  let all_tasks :=
    summary <$> filter (fun d => status_matches status d = true)
                       (snd <$> task_files) in
  let all_tasks := sort_latest_first all_tasks in
  ret {| listing_tasks := slice_to limit all_tasks;
         listing_total := length all_tasks;
         listing_limit := limit;
         listing_filter_status := status |}.

Definition set_MAX_OUTPUT_FILES (f : nat -> nat) (w : world) : world :=
  {| tasks := tasks w; TASKS_DIR := TASKS_DIR w; OUTPUT_DIR := OUTPUT_DIR w;
     TEMP_DIR := TEMP_DIR w; MAX_OUTPUT_FILES := f (MAX_OUTPUT_FILES w);
     clock := clock w; readers := readers w; engine_log := engine_log w;
     journal := journal w; background_tasks := background_tasks w |}.

(** [len(list(OUTPUT_DIR.glob("*")))]: every entry counts, file or not. *)
Definition count_output_entries : M nat := gets (fun w => length (OUTPUT_DIR w)).

Record cleanup_report := {
  rep_files_before : nat;
  rep_files_after : nat;
  rep_files_deleted : Z;
  rep_max_files_limit : nat;
  rep_timestamp : Z
}.

(** [POST /cleanup] *)
Definition manual_cleanup : M cleanup_report :=
  try_except
    (do files_before <- count_output_entries;
     run cleanup_old_files;
     do files_after <- count_output_entries;
     let deleted_count := (Z.of_nat files_before - Z.of_nat files_after)%Z in
     do limit <- gets MAX_OUTPUT_FILES;
     do t <- now;
     ret {| rep_files_before := files_before; rep_files_after := files_after;
            rep_files_deleted := deleted_count; rep_max_files_limit := limit;
            rep_timestamp := t |})
    (fun e => raise (HTTPException 500 ("Cleanup failed: " +:+ str e))).

Record limit_report := {
  lim_old_limit : nat;
  lim_new_limit : nat;
  lim_current_files : nat;
  lim_cleanup_triggered : bool;
  lim_timestamp : Z
}.

(** [POST /config/max-files]; the global is a Python int that this route,
    its only writer, keeps between 1 and 100. *)
Definition update_max_files (max_files : Z) : M limit_report :=
  if (max_files <? 1)%Z then
    raise (HTTPException 400 "max_files must be at least 1")
  else if (100 <? max_files)%Z then
    raise (HTTPException 400 "max_files cannot exceed 100")
  else
    do old_limit <- gets MAX_OUTPUT_FILES;
    run modify (set_MAX_OUTPUT_FILES (fun _ => Z.to_nat max_files));
    try_except
      (do current_files <- count_output_entries;
       do limit <- gets MAX_OUTPUT_FILES;
       let cleanup_triggered := (limit <? current_files)%nat in
       do files_after_cleanup <-
         (if cleanup_triggered then run cleanup_old_files; count_output_entries
          else ret current_files);
       do new_limit <- gets MAX_OUTPUT_FILES;
       do t <- now;
       ret {| lim_old_limit := old_limit; lim_new_limit := new_limit;
              lim_current_files := files_after_cleanup;
              lim_cleanup_triggered := cleanup_triggered;
              lim_timestamp := t |})
      (fun e =>
         run modify (set_MAX_OUTPUT_FILES (fun _ => old_limit));
         raise (HTTPException 500 ("Failed to update limit: " +:+ str e))).

(** ** The service as a transition system *)

(** What can happen to the process state: a request on one of the routes,
    or the background runner taking up a job. *)
Inductive event :=
| PostTask (p : policy) (task_id : string) (video_file audio_file : UploadFile)
| RunJob (eng : engine) (j : job)
| GetTaskStatus (task_id : string)
| GetDownload (task_id : string)
| GetTasks (limit : Z) (status : option TaskStatus)
| PostCleanup
| PostMaxFiles (max_files : Z).

Definition after (e : event) (w : world) : world :=
  match e with
  | PostTask p task_id video_file audio_file =>
      (route p task_id video_file audio_file w).2
  | RunJob eng j => (run_job eng j w).2
  | GetTaskStatus task_id => (get_task_status task_id w).2
  | GetDownload task_id => (download_task_result task_id w).2
  | GetTasks limit status => (list_tasks limit status w).2
  | PostCleanup => (manual_cleanup w).2
  | PostMaxFiles max_files => (update_max_files max_files w).2
  end.

Definition after_all (es : list event) (w : world) : world :=
  foldl (fun w e => after e w) w es.

(** ** Relations that computations keep *)

(** Every run of [m] relates the state before to the state after. *)
Definition keeps {A} (R : relation world) (m : M A) : Prop :=
  ∀ w, R w (m w).2.

(** [R] cannot tell a state from the same state with one field changed. *)
Class Ignores {T} (set : (T -> T) -> world -> world) (R : relation world) :=
  ignores : ∀ f w, R w (set f w).

(** [R] relates a state to the same state one clock reading later. *)
Class Ticks (R : relation world) :=
  ticks : ∀ w, R w (set_clock Z.succ w).

(** A property of states that, once true, stays true. *)
Definition preserved (P : world -> Prop) : relation world :=
  fun w w' => P w -> P w'.

(** The cache holds nothing that the durable store lacks or holds
    differently. *)
Definition cache_coherent (w : world) : Prop :=
  ∀ task_id d, tasks w !! task_id = Some d -> TASKS_DIR w !! task_id = Some d.

(** No two entries of [OUTPUT_DIR] share a name. *)
Definition distinct_outputs (w : world) : Prop :=
  NoDup (fname <$> OUTPUT_DIR w).

Definition limit_in_range (w : world) : Prop :=
  (1 <= MAX_OUTPUT_FILES w <= 100)%nat.

(** ** Further relations on states *)

(** Of the temporary files, at most the two named ones are gone and none
    is new. *)
Definition removes_at_most (vp ap : string) : relation world :=
  fun w w' =>
    TEMP_DIR w' ⊆ TEMP_DIR w ∧ TEMP_DIR w ∖ {[vp]} ∖ {[ap]} ⊆ TEMP_DIR w'.

(** The records of the tasks other than [task_id] are as they were or
    gone, and every record written since is one of [task_id]. *)
Definition others_untouched (task_id : string) : relation world :=
  fun w w' =>
    (∀ other d, other ≠ task_id ->
       (TASKS_DIR w' !! other = Some d -> TASKS_DIR w !! other = Some d) ∧
       (tasks w' !! other = Some d -> tasks w !! other = Some d)) ∧
    appended (journal w) (journal w') (Forall (fun e => e.1 = task_id)).

(** A task unknown to both stores stays unknown, and nothing is written. *)
Definition stays_unknown (task_id : string) : relation world :=
  fun w w' =>
    tasks w !! task_id = None ∧ TASKS_DIR w !! task_id = None ->
    tasks w' !! task_id = None ∧ TASKS_DIR w' !! task_id = None ∧
    journal w' = journal w.

(** The files one pass tries to delete. *)
Definition doomed_files (w : world) : list (file_entry * Z) :=
  let sorted := sort_newest_first (glob_output_files w) in
  if (MAX_OUTPUT_FILES w <? length sorted)%nat
  then drop (MAX_OUTPUT_FILES w) sorted else [].

(** The record of [task_id] is what it was, in both stores. *)
Definition same_record (task_id : string) : relation world :=
  fun w w' =>
    TASKS_DIR w' !! task_id = TASKS_DIR w !! task_id ∧
    tasks w' !! task_id = tasks w !! task_id.

(** Once the record of [task_id] is gone from both stores, it stays so. *)
Definition stays_gone (task_id : string) : relation world :=
  fun w w' =>
    TASKS_DIR w !! task_id = None ∧ tasks w !! task_id = None ->
    TASKS_DIR w' !! task_id = None ∧ tasks w' !! task_id = None.

(** Nothing of a task is left: no record, no job, no upload. *)
Definition no_task_created (w w' : world) : Prop :=
  tasks w' = tasks w ∧ TASKS_DIR w' = TASKS_DIR w ∧ journal w' = journal w ∧
  background_tasks w' = background_tasks w ∧ OUTPUT_DIR w' = OUTPUT_DIR w ∧
  clock w' = clock w ∧ TEMP_DIR w' ⊆ TEMP_DIR w.

(** Latest first: nothing in the tail was created after the head. *)
Fixpoint latest_first (l : list task_summary) : Prop :=
  match l with
  | [] => True
  | y :: l' =>
      Forall (fun z => (sum_created_at z <= sum_created_at y)%Z) l' ∧
      latest_first l'
  end.


(** ** The monad *)

Lemma bind_returns {A B} (m : M A) (k : A -> M B) (w : world) (a : A) :
  (m w).1 = Return a -> bind m k w = k a (m w).2.
Proof. unfold bind. destruct (m w) as [r w']; simpl. by intros ->. Qed.

Lemma try_except_returns {A} (m : M A) (h : exn -> M A) (w : world) (a : A) :
  (m w).1 = Return a -> try_except m h w = (Return a, (m w).2).
Proof. unfold try_except. destruct (m w) as [r w']; simpl. by intros ->. Qed.

(** ** Task store *)

Lemma update_task_status_returns task_id s k w :
  (update_task_status task_id s k w).1 = Return tt.
Proof.
  unfold update_task_status, bind, get_task.
  destruct (tasks w !! task_id); [reflexivity|].
  destruct (TASKS_DIR w !! task_id); reflexivity.
Qed.

Lemma update_task_status_engine_log task_id s k w :
  engine_log (update_task_status task_id s k w).2 = engine_log w.
Proof.
  unfold update_task_status, bind, get_task.
  destruct (tasks w !! task_id); [reflexivity|].
  destruct (TASKS_DIR w !! task_id); reflexivity.
Qed.



(** ** Duration matching *)

Lemma Qltb_lt x y : Qltb x y = true <-> (x < y)%Q.
Proof.
  unfold Qltb. rewrite negb_true_iff. split.
  - intros H. apply Qnot_le_lt. intros Hle.
    apply Qle_bool_iff in Hle. congruence.
  - intros H. destruct (Qle_bool y x) eqn:E; [|reflexivity].
    apply Qle_bool_iff in E. by apply Qlt_not_le in H.
Qed.

Lemma Qltb_ge x y : Qltb x y = false <-> (y <= x)%Q.
Proof.
  unfold Qltb. rewrite negb_false_iff. apply Qle_bool_iff.
Qed.

Lemma py_int_floor (x : Q) : (0 <= x)%Q -> py_int x = Qfloor x.
Proof.
  destruct x as [n d]. unfold py_int, Qfloor, Qle; simpl.
  intros H. apply Z.quot_div_nonneg; lia.
Qed.

Lemma py_div_nonzero (x y : Q) (w : world) :
  ¬ (y == 0)%Q -> py_div x y w = (Return (x / y)%Q, w).
Proof.
  intros H. unfold py_div.
  destruct (Qeq_bool y 0) eqn:E; [|reflexivity].
  by apply Qeq_bool_eq in E.
Qed.

Lemma py_div_zero (x y : Q) (w : world) :
  (y == 0)%Q -> py_div x y w = (Raise (Exception "float division by zero"), w).
Proof.
  intros H. unfold py_div. by rewrite (Qeq_eq_bool _ _ H).
Qed.


(** The "audio is longer" branch, which both workers share. *)
Lemma loop_video_branch (f : background_fn) (task_id : string)
    (video_clip audio_clip : clip) (w : world) :
  (0 < duration video_clip)%Q ->
  (duration video_clip < duration audio_clip)%Q ->
  let loops := (Qfloor (duration audio_clip / duration video_clip) + 1)%Z in
  let looped :=
    {| clip_source := clip_source video_clip; clip_kind := clip_kind video_clip;
       clip_ops := clip_ops video_clip ++ [Loop loops];
       duration := (inject_Z loops * duration video_clip)%Q |} in
  let trimmed :=
    {| clip_source := clip_source video_clip; clip_kind := clip_kind video_clip;
       clip_ops := (clip_ops video_clip ++ [Loop loops]) ++
                   [Subclip 0 (duration audio_clip)];
       duration := (duration audio_clip - 0)%Q |} in
  (match_durations f task_id video_clip audio_clip w).1 =
    Return (trimmed, audio_clip) ∧
  engine_log (match_durations f task_id video_clip audio_clip w).2 =
    engine_log w ++ [CallLoop video_clip loops;
                     CallSubclip looped 0 (duration audio_clip)].
Proof.
  intros Hv Hlt loops looped trimmed.
  assert (Hne : ¬ (duration video_clip == 0)%Q)
    by (intros E; rewrite E in Hv; inversion Hv).
  assert (Hpos : (0 <= duration audio_clip / duration video_clip)%Q).
  { apply Qlt_le_weak, Qlt_shift_div_l; [exact Hv|].
    rewrite Qmult_0_l. by apply Qlt_trans with (duration video_clip). }
  assert (E : match_durations f task_id video_clip audio_clip w =
    (run update_task_status task_id PROCESSING
           (kw "Audio is longer - looping video to match");
     do ratio <- py_div (duration audio_clip) (duration video_clip);
     do looped <- clip_loop video_clip (py_int ratio + 1);
     do video_clip <- subclip looped 0 (duration audio_clip);
     ret (video_clip, audio_clip)) w).
  { destruct f; unfold match_durations, merge_match_durations,
      replace_match_durations; by rewrite (proj2 (Qltb_lt _ _) Hlt). }
  assert (E' : match_durations f task_id video_clip audio_clip w =
    (Return (trimmed, audio_clip),
     set_engine_log (fun l => l ++ [CallSubclip looped 0 (duration audio_clip)])
       (set_engine_log (fun l => l ++ [CallLoop video_clip loops])
          (update_task_status task_id PROCESSING
             (kw "Audio is longer - looping video to match") w).2))).
  { rewrite E.
    rewrite (bind_returns _ _ _ tt (update_task_status_returns _ _ _ _)).
    unfold bind at 1. rewrite (py_div_nonzero _ _ _ Hne).
    by rewrite (py_int_floor _ Hpos). }
  rewrite E'. simpl. split; [reflexivity|].
  rewrite update_task_status_engine_log. by rewrite <- app_assoc.
Qed.





(** C5, counterexample: no positive tolerance makes the claim true.  Durations
    [1] and [1 + tol] are within [tol] of each other, and the merge worker
    loops and trims the video. *)
Lemma duration_tolerance_counterexample :
  ¬ ∃ tol : Q, (0 < tol)%Q ∧
      ∀ (p : policy) (task_id : string) (video_clip audio_clip : clip) (w : world),
        (duration video_clip - duration audio_clip <= tol)%Q ->
        (duration audio_clip - duration video_clip <= tol)%Q ->
        (match_durations (worker p) task_id video_clip audio_clip w).1 =
          Return (video_clip, audio_clip).
Proof.
  intros (tol & Htol & H).
  pose (video_clip := {| clip_source := "video_T.mp4"; clip_kind := Video;
                         clip_ops := []; duration := 1 |}).
  pose (audio_clip := {| clip_source := "audio_T.mp3"; clip_kind := Audio;
                         clip_ops := []; duration := 1 + tol |}).
  specialize (H merge "T" video_clip audio_clip world0).
  assert (Hv : (0 < duration video_clip)%Q) by reflexivity.
  assert (Hlt : (duration video_clip < duration audio_clip)%Q) by (simpl; lra).
  destruct (loop_video_branch (worker merge) "T" video_clip audio_clip world0
              Hv Hlt) as [Hres _].
  assert (Hpass := H ltac:(simpl; lra) ltac:(simpl; lra)).
  rewrite Hres in Hpass. discriminate Hpass.
Qed.

(** C5, amended: when the two durations are equal (the comparison is
    exact, there is no tolerance), every policy passes both clips through
    unmodified: no loop and no trim is requested from the engine. *)
Theorem equal_durations_pass_through (p : policy) (task_id : string)
    (video_clip audio_clip : clip) (w : world) :
  (duration video_clip == duration audio_clip)%Q ->
  (match_durations (worker p) task_id video_clip audio_clip w).1 =
    Return (video_clip, audio_clip) ∧
  engine_log (match_durations (worker p) task_id video_clip audio_clip w).2 =
    engine_log w.
Proof.
  intros Heq.
  assert (H1 : Qltb (duration video_clip) (duration audio_clip) = false)
    by (apply Qltb_ge; rewrite Heq; apply Qle_refl).
  assert (H2 : Qltb (duration audio_clip) (duration video_clip) = false)
    by (apply Qltb_ge; rewrite Heq; apply Qle_refl).
  assert (E : match_durations (worker p) task_id video_clip audio_clip w =
    (run update_task_status task_id PROCESSING
           (kw "Video and audio durations match");
     ret (video_clip, audio_clip)) w).
  { destruct p; unfold worker, match_durations, merge_match_durations,
      replace_match_durations; by rewrite H1, H2. }
  rewrite E, (bind_returns _ _ _ tt (update_task_status_returns _ _ _ _)).
  simpl. split; [reflexivity|]. apply update_task_status_engine_log.
Qed.

Lemma equal_durations_pass_through_witness :
  let video_clip := {| clip_source := "video_T.mp4"; clip_kind := Video;
                       clip_ops := []; duration := 10 |} in
  let audio_clip := {| clip_source := "audio_T.mp3"; clip_kind := Audio;
                       clip_ops := []; duration := 20 # 2 |} in
  (match_durations (worker replace) "T" video_clip audio_clip world0).1 =
    Return (video_clip, audio_clip) ∧
  engine_log (match_durations (worker replace) "T" video_clip audio_clip world0).2 =
    engine_log world0.
Proof.
  intros video_clip audio_clip.
  apply (equal_durations_pass_through replace "T" video_clip audio_clip world0).
  reflexivity.
Defined.

(** ** Retention *)

Lemma retention_frame_refl w : retention_frame w w.
Proof. by repeat split. Qed.

Lemma retention_frame_trans w1 w2 w3 :
  retention_frame w1 w2 -> retention_frame w2 w3 -> retention_frame w1 w3.
Proof.
  unfold retention_frame. intros (?&?&?&?&?&?&?) (?&?&?&?&?&?&?).
  repeat split; congruence.
Qed.

(** One iteration of the loop, with its [try]: it never raises, and the
    listing changes as [unlink] decides. *)
Lemma delete_old_file_guarded (f : file_entry) (w : world) :
  let r := try_except (delete_old_file f) (fun _ => ret tt) w in
  r.1 = Return tt ∧
  OUTPUT_DIR r.2 = unlink_result (fname f) (OUTPUT_DIR w) ∧
  retention_frame w r.2.
Proof.
  unfold try_except, delete_old_file, bind, unlink_output, unlink_result,
    gets, modify, ret, raise.
  destruct (list_find _ (OUTPUT_DIR w)) as [[i e]|]; [|by repeat split].
  destruct (locked e); [by repeat split|].
  destruct (_ || _); [|by repeat split].
  destruct (split1_snd _ _) as [task_id|]; [|by repeat split].
  simpl. destruct (bool_decide _); [|by repeat split].
  simpl. destruct (bool_decide _); by repeat split.
Qed.

Lemma delete_loop (l : list (file_entry * Z)) (w : world) :
  let r := for_each l (fun '(file_path, _) =>
             try_except (delete_old_file file_path) (fun _ => ret tt)) w in
  r.1 = Return tt ∧
  OUTPUT_DIR r.2 =
    foldl (fun d p => unlink_result (fname p.1) d) (OUTPUT_DIR w) l ∧
  retention_frame w r.2.
Proof.
  revert w. induction l as [|[f t] l IH]; intros w; simpl.
  { split; [reflexivity|]. split; [reflexivity|]. apply retention_frame_refl. }
  destruct (delete_old_file_guarded f w) as (Hr & Hd & Hf).
  rewrite (bind_returns _ _ _ tt Hr).
  destruct (IH (try_except (delete_old_file f) (fun _ => ret tt) w).2)
    as (Hr' & Hd' & Hf').
  split; [exact Hr'|]. split; [by rewrite Hd', Hd|].
  by apply retention_frame_trans with (2 := Hf').
Qed.

(** The files the pass decides to delete. *)
Lemma cleanup_old_files_spec (w : world) :
  let sorted := sort_newest_first (glob_output_files w) in
  let doomed :=
    if (MAX_OUTPUT_FILES w <? length sorted)%nat
    then drop (MAX_OUTPUT_FILES w) sorted else [] in
  (cleanup_old_files w).1 = Return tt ∧
  OUTPUT_DIR (cleanup_old_files w).2 =
    foldl (fun d p => unlink_result (fname p.1) d) (OUTPUT_DIR w) doomed ∧
  retention_frame w (cleanup_old_files w).2.
Proof.
  intros sorted doomed.
  set (body := do output_files <- gets glob_output_files;
     let output_files := sort_newest_first output_files in
     do max_output_files <- gets MAX_OUTPUT_FILES;
     if (max_output_files <? length output_files)%nat then
       let files_to_delete := drop max_output_files output_files in
       for_each files_to_delete (fun '(file_path, _) =>
         try_except (delete_old_file file_path) (fun _ => ret tt))
     else ret tt).
  assert (Hbody : (body w).1 = Return tt ∧
    OUTPUT_DIR (body w).2 =
      foldl (fun d p => unlink_result (fname p.1) d) (OUTPUT_DIR w) doomed ∧
    retention_frame w (body w).2).
  { unfold body, bind, gets, doomed, sorted; simpl.
    destruct (_ <? _)%nat; [apply delete_loop|].
    simpl. split; [reflexivity|]. split; [reflexivity|].
    apply retention_frame_refl. }
  destruct Hbody as (Hr & Hd & Hf).
  change (cleanup_old_files w) with (try_except body (fun _ => ret tt) w).
  by rewrite (try_except_returns _ _ _ tt Hr).
Qed.

(** A pass over a directory within the limit changes nothing at all. *)
Lemma cleanup_old_files_within_limit (w : world) :
  (length (glob_output_files w) <= MAX_OUTPUT_FILES w)%nat ->
  cleanup_old_files w = (Return tt, w).
Proof.
  intros Hle. unfold cleanup_old_files, try_except, bind, gets; simpl.
  assert (Hlen : length (sort_newest_first (glob_output_files w)) =
                 length (glob_output_files w)).
  { generalize (glob_output_files w). clear. intros l.
    induction l as [|x l IH]; [reflexivity|]. simpl. rewrite <- IH.
    generalize (sort_newest_first l). clear. intros l.
    induction l as [|y l IH]; [reflexivity|]. simpl.
    destruct (_ <? _)%Z; simpl; by rewrite ?IH. }
  rewrite Hlen.
  destruct (Nat.ltb_spec (MAX_OUTPUT_FILES w) (length (glob_output_files w)));
    [lia|reflexivity].
Qed.

(** *** Lists: unlinking *)

Lemma filter_all {A} (P : A -> Prop) `{!∀ x, Decision (P x)} (l : list A) :
  Forall P l -> filter P l = l.
Proof.
  induction 1 as [|x l Hx _ IH]; [reflexivity|].
  by rewrite filter_cons_True, IH.
Qed.

Lemma filter_agree {A} (P Q : A -> Prop) `{!∀ x, Decision (P x)}
    `{!∀ x, Decision (Q x)} (l : list A) :
  (∀ x, x ∈ l -> P x <-> Q x) -> filter P l = filter Q l.
Proof.
  induction l as [|x l IH]; intros Hag; [reflexivity|].
  rewrite !filter_cons.
  rewrite IH by (intros y Hy; apply Hag; by right).
  pose proof (Hag x (list_elem_of_here _ _)) as Hx.
  destruct (decide (P x)), (decide (Q x)); try reflexivity; tauto.
Qed.

Lemma fmap_NoDup_inj {A B} (f : A -> B) (l : list A) (x y : A) :
  NoDup (f <$> l) -> x ∈ l -> y ∈ l -> f x = f y -> x = y.
Proof.
  induction l as [|z l IH]; intros Hnd Hx Hy Hf; [by apply elem_of_nil in Hx|].
  rewrite fmap_cons in Hnd. apply NoDup_cons in Hnd as [Hz Hnd].
  apply elem_of_cons in Hx as [->|Hx]; apply elem_of_cons in Hy as [->|Hy].
  - reflexivity.
  - exfalso. apply Hz. rewrite Hf. by apply list_elem_of_fmap_2.
  - exfalso. apply Hz. rewrite <- Hf. by apply list_elem_of_fmap_2.
  - by apply IH.
Qed.

Lemma unlink_result_coherent (name : string) (b : bool) (dir : list file_entry) :
  (∀ e, e ∈ dir -> fname e = name -> locked e = b) ->
  unlink_result name dir =
    if b then dir else filter (fun e => fname e ≠ name) dir.
Proof.
  intros H. unfold unlink_result.
  destruct (list_find _ dir) as [[i e]|] eqn:E.
  - apply list_find_Some in E as (Hi & Hn & _).
    rewrite (H e); [reflexivity| |exact Hn].
    by apply list_elem_of_lookup_2 with i.
  - apply list_find_None in E. destruct b; [reflexivity|].
    symmetry. by apply filter_all.
Qed.

Lemma foldl_unlink_result (doomed : list (file_entry * Z)) (dir : list file_entry) :
  (∀ p e, p ∈ doomed -> e ∈ dir -> fname e = fname p.1 ->
          locked e = locked p.1) ->
  foldl (fun d p => unlink_result (fname p.1) d) dir doomed =
    filter (fun e => fname e ∉ removable_names doomed) dir.
Proof.
  revert dir. induction doomed as [|p doomed IH]; intros dir H; simpl.
  - symmetry. apply filter_all, Forall_forall. intros e _. apply not_elem_of_nil.
  - rewrite (unlink_result_coherent _ (locked p.1))
      by (intros e He Hn; apply H; [left|exact He|exact Hn]).
    unfold removable_names. destruct (locked p.1) eqn:Hl.
    + rewrite filter_cons_False by (rewrite Hl; discriminate).
      apply IH. intros q e Hq. apply H. by right.
    + rewrite filter_cons_True by exact Hl. rewrite fmap_cons.
      rewrite IH.
      * rewrite list_filter_filter. apply list_filter_iff.
        intros e. rewrite not_elem_of_cons. tauto.
      * intros q e Hq He. apply H; [by right|].
        by apply list_elem_of_filter in He as [_ He].
Qed.

(** *** Lists: the stable sort *)

Lemma insert_newest_first_perm x l : insert_newest_first x l ≡ₚ x :: l.
Proof.
  induction l as [|y l IH]; simpl; [reflexivity|].
  destruct (_ <? _)%Z; [|reflexivity].
  rewrite IH. apply Permutation_swap.
Qed.

Lemma sort_newest_first_perm l : sort_newest_first l ≡ₚ l.
Proof.
  induction l as [|x l IH]; simpl; [reflexivity|].
  by rewrite insert_newest_first_perm, IH.
Qed.

Lemma insert_newest_first_sorted x l :
  newest_first l -> newest_first (insert_newest_first x l).
Proof.
  induction l as [|y l IH]; simpl; intros H.
  { split; [constructor|exact I]. }
  destruct H as [Hall Hs].
  destruct (Z.ltb_spec x.2 y.2) as [Hlt|Hge]; simpl.
  - split; [|by apply IH].
    rewrite insert_newest_first_perm. constructor; [lia|exact Hall].
  - split; [|by split].
    constructor; [exact Hge|].
    eapply Forall_impl; [exact Hall|]. simpl. intros z Hz. lia.
Qed.

Lemma sort_newest_first_sorted l : newest_first (sort_newest_first l).
Proof.
  induction l as [|x l IH]; simpl; [exact I|].
  by apply insert_newest_first_sorted.
Qed.

Lemma insert_newest_first_head x l :
  Forall (fun z => (z.2 <= x.2)%Z) l -> insert_newest_first x l = x :: l.
Proof.
  destruct l as [|y l]; [reflexivity|]. intros H. simpl.
  apply Forall_cons in H as [Hy _].
  destruct (Z.ltb_spec x.2 y.2); [lia|reflexivity].
Qed.

(** Stability: sorting commutes with dropping elements. *)
Lemma insert_newest_first_filter (P : file_entry * Z -> Prop)
    `{!∀ x, Decision (P x)} x l :
  newest_first l ->
  filter P (insert_newest_first x l) =
    if decide (P x) then insert_newest_first x (filter P l) else filter P l.
Proof.
  induction l as [|y l IH]; intros Hs.
  { simpl. rewrite filter_cons, filter_nil. by destruct (decide (P x)). }
  destruct Hs as [Hall Hs]. simpl.
  destruct (Z.ltb_spec x.2 y.2) as [Hlt|Hge].
  - rewrite !filter_cons, (IH Hs).
    destruct (decide (P y)), (decide (P x)); simpl; try reflexivity.
    by rewrite (proj2 (Z.ltb_lt _ _) Hlt).
  - rewrite (filter_cons _ x). destruct (decide (P x)); [|reflexivity].
    symmetry. apply insert_newest_first_head.
    apply Forall_forall. intros z Hz.
    apply list_elem_of_filter in Hz as [_ Hz].
    apply elem_of_cons in Hz as [->|Hz]; [exact Hge|].
    rewrite Forall_forall in Hall. specialize (Hall z Hz). simpl in Hall. lia.
Qed.

Lemma sort_newest_first_filter (P : file_entry * Z -> Prop)
    `{!∀ x, Decision (P x)} l :
  sort_newest_first (filter P l) = filter P (sort_newest_first l).
Proof.
  induction l as [|x l IH]; [reflexivity|].
  simpl. rewrite filter_cons.
  rewrite (insert_newest_first_filter P) by apply sort_newest_first_sorted.
  destruct (decide (P x)); simpl; by rewrite IH.
Qed.

(** *** A pass that can delete nothing *)

Lemma delete_old_file_refused (f : file_entry) (w : world) :
  (∀ e, e ∈ OUTPUT_DIR w -> fname e = fname f -> locked e = true) ->
  try_except (delete_old_file f) (fun _ => ret tt) w = (Return tt, w).
Proof.
  intros H. unfold try_except, delete_old_file, bind, unlink_output.
  destruct (list_find _ (OUTPUT_DIR w)) as [[i e]|] eqn:E; [|reflexivity].
  apply list_find_Some in E as (Hi & Hn & _).
  rewrite (H e); [reflexivity| |exact Hn].
  by apply list_elem_of_lookup_2 with i.
Qed.

Lemma delete_loop_refused (l : list (file_entry * Z)) (w : world) :
  (∀ p e, p ∈ l -> e ∈ OUTPUT_DIR w -> fname e = fname p.1 ->
          locked e = true) ->
  for_each l (fun '(file_path, _) =>
    try_except (delete_old_file file_path) (fun _ => ret tt)) w = (Return tt, w).
Proof.
  induction l as [|[f t] l IH]; intros H; [reflexivity|].
  simpl. unfold bind.
  rewrite delete_old_file_refused
    by (intros e He Hn; apply (H (f, t)); [left|exact He|exact Hn]).
  apply IH. intros p e Hp. apply H. by right.
Qed.

Lemma cleanup_old_files_refused (w : world) :
  (∀ p e, p ∈ drop (MAX_OUTPUT_FILES w) (sort_newest_first (glob_output_files w)) ->
          e ∈ OUTPUT_DIR w -> fname e = fname p.1 -> locked e = true) ->
  cleanup_old_files w = (Return tt, w).
Proof.
  intros H. unfold cleanup_old_files, try_except, bind, gets; simpl.
  destruct (_ <? _)%nat; [|reflexivity].
  by rewrite delete_loop_refused.
Qed.

(** *** What one pass leaves *)

Lemma glob_output_files_names (w : world) :
  (fun p => fname p.1) <$> glob_output_files w =
    fname <$> filter (fun e => is_file e = true) (OUTPUT_DIR w).
Proof.
  unfold glob_output_files. rewrite <- list_fmap_compose. reflexivity.
Qed.

Lemma glob_output_files_elem (w : world) (p : file_entry * Z) :
  p ∈ glob_output_files w -> p.1 ∈ OUTPUT_DIR w.
Proof.
  unfold glob_output_files. intros Hp.
  apply list_elem_of_fmap in Hp as (e & -> & He).
  by apply list_elem_of_filter in He as [_ He].
Qed.

Lemma glob_output_files_NoDup (w : world) :
  NoDup (fname <$> OUTPUT_DIR w) ->
  NoDup ((fun p => fname p.1) <$> glob_output_files w).
Proof.
  intros Hnd. rewrite glob_output_files_names.
  eapply sublist_NoDup; [exact Hnd|].
  apply fmap_sublist. apply sublist_filter.
Qed.

Lemma glob_output_files_filter (w w' : world) (P : file_entry -> Prop)
    `{!∀ e, Decision (P e)} :
  OUTPUT_DIR w' = filter P (OUTPUT_DIR w) ->
  glob_output_files w' = filter (fun p => P p.1) (glob_output_files w).
Proof.
  intros E. unfold glob_output_files. rewrite E. clear E.
  induction (OUTPUT_DIR w) as [|e l IH]; [reflexivity|].
  rewrite (filter_cons P), (filter_cons (fun e => is_file e = true) e l).
  destruct (decide (P e)) as [HP|HP], (decide (is_file e = true)) as [Hf|Hf].
  - rewrite filter_cons_True by exact Hf. rewrite !fmap_cons.
    rewrite filter_cons_True by exact HP. by rewrite IH.
  - rewrite filter_cons_False by exact Hf. exact IH.
  - rewrite fmap_cons, filter_cons_False by exact HP. exact IH.
  - exact IH.
Qed.

(** After one pass over a directory with distinct names, the files beyond
    the limit that are left are exactly those that cannot be unlinked. *)
Lemma cleanup_old_files_leaves (w : world) :
  NoDup (fname <$> OUTPUT_DIR w) ->
  (MAX_OUTPUT_FILES w < length (glob_output_files w))%nat ->
  let sorted := sort_newest_first (glob_output_files w) in
  let doomed := drop (MAX_OUTPUT_FILES w) sorted in
  let w1 := (cleanup_old_files w).2 in
  OUTPUT_DIR w1 =
    filter (fun e => fname e ∉ removable_names doomed) (OUTPUT_DIR w) ∧
  sort_newest_first (glob_output_files w1) =
    take (MAX_OUTPUT_FILES w) sorted ++
    filter (fun p => locked p.1 = true) doomed.
Proof.
  intros Hnd Hlen sorted doomed w1.
  pose proof (cleanup_old_files_spec w) as Hspec. cbv zeta in Hspec.
  destruct Hspec as (_ & Hdir & _).
  assert (Hperm : sorted ≡ₚ glob_output_files w)
    by apply sort_newest_first_perm.
  assert (Hlen' : (MAX_OUTPUT_FILES w <?
            length (sort_newest_first (glob_output_files w)))%nat = true).
  { apply Nat.ltb_lt. fold sorted. by rewrite Hperm. }
  rewrite Hlen' in Hdir. fold sorted in Hdir. fold doomed in Hdir.
  assert (Hin : ∀ p, p ∈ sorted -> p.1 ∈ OUTPUT_DIR w).
  { intros p Hp. apply glob_output_files_elem. by rewrite <- Hperm. }
  assert (Hnames : NoDup ((fun p => fname p.1) <$> sorted)).
  { rewrite Hperm. by apply glob_output_files_NoDup. }
  assert (Hsplit : sorted = take (MAX_OUTPUT_FILES w) sorted ++ doomed)
    by (symmetry; apply take_drop).
  assert (Hdoomed : ∀ p, p ∈ doomed -> p ∈ sorted).
  { intros p Hp. rewrite Hsplit. apply elem_of_app. by right. }
  assert (Hdir1 : OUTPUT_DIR w1 =
    filter (fun e => fname e ∉ removable_names doomed) (OUTPUT_DIR w)).
  { unfold w1. rewrite Hdir. apply foldl_unlink_result.
    intros p e Hp He Hn. f_equal.
    apply (fmap_NoDup_inj fname (OUTPUT_DIR w)); auto. }
  split; [exact Hdir1|].
  rewrite (glob_output_files_filter w w1 _ Hdir1).
  rewrite sort_newest_first_filter. fold sorted.
  rewrite Hsplit at 1. rewrite filter_app. f_equal.
  - apply filter_all, Forall_forall. intros p Hp Hrm.
    unfold removable_names in Hrm.
    apply list_elem_of_fmap in Hrm as (q & Hq & Hqd).
    apply list_elem_of_filter in Hqd as [_ Hqd].
    rewrite Hsplit, fmap_app in Hnames.
    apply NoDup_app in Hnames as (_ & Hdisj & _).
    apply (Hdisj (fname p.1)).
    + by apply (list_elem_of_fmap_2 (fun p => fname p.1)).
    + rewrite Hq. by apply (list_elem_of_fmap_2 (fun p => fname p.1)).
  - apply filter_agree. intros p Hp. split.
    + intros Hkeep. destruct (locked p.1) eqn:Hl; [reflexivity|].
      exfalso. apply Hkeep. unfold removable_names.
      apply (list_elem_of_fmap_2 (fun p => fname p.1)).
      by apply list_elem_of_filter.
    + intros Hl Hrm. unfold removable_names in Hrm.
      apply list_elem_of_fmap in Hrm as (q & Hq & Hqd).
      apply list_elem_of_filter in Hqd as [Hql Hqd].
      assert (p = q).
      { apply (fmap_NoDup_inj (fun p => fname p.1) sorted); auto. }
      subst q. congruence.
Qed.

(** C9: a second retention pass run right after a first one, on a directory
    whose names are distinct, changes nothing: the artifact set (and the
    whole state) after the second call is that after the first; and a pass
    over a directory whose file count does not exceed the limit deletes
    nothing. *)
Theorem cleanup_old_files_idempotent (w : world) :
  NoDup (fname <$> OUTPUT_DIR w) ->
  let w1 := (cleanup_old_files w).2 in
  OUTPUT_DIR (cleanup_old_files w1).2 = OUTPUT_DIR w1 ∧
  cleanup_old_files w1 = (Return tt, w1) ∧
  ((length (glob_output_files w) <= MAX_OUTPUT_FILES w)%nat ->
   cleanup_old_files w = (Return tt, w)).
Proof.
  intros Hnd w1.
  assert (Hsecond : cleanup_old_files w1 = (Return tt, w1)).
  { destruct (le_lt_dec (length (glob_output_files w)) (MAX_OUTPUT_FILES w))
      as [Hle|Hlt].
    { unfold w1. rewrite (cleanup_old_files_within_limit w Hle). simpl.
      by apply cleanup_old_files_within_limit. }
    pose proof (cleanup_old_files_leaves w Hnd Hlt) as Hleaves.
    cbv zeta in Hleaves. fold w1 in Hleaves. destruct Hleaves as [Hdir Hsorted].
    pose proof (cleanup_old_files_spec w) as Hspec. cbv zeta in Hspec.
    destruct Hspec as (_ & _ & Hframe). fold w1 in Hframe.
    destruct Hframe as (_ & Hmax & _).
    apply cleanup_old_files_refused. rewrite Hmax, Hsorted.
    set (sorted := sort_newest_first (glob_output_files w)) in *.
    assert (Hperm : sorted ≡ₚ glob_output_files w)
      by apply sort_newest_first_perm.
    rewrite drop_app_length'
      by (rewrite length_take_le; [reflexivity|rewrite Hperm; lia]).
    intros p e Hp He Hn.
    apply list_elem_of_filter in Hp as [Hl Hp].
    rewrite Hdir in He. apply list_elem_of_filter in He as [_ He].
    assert (Hps : p ∈ sorted).
    { rewrite <- (take_drop (MAX_OUTPUT_FILES w) sorted).
      apply elem_of_app. by right. }
    assert (Hpd : p.1 ∈ OUTPUT_DIR w).
    { apply glob_output_files_elem. by rewrite <- Hperm. }
    by rewrite (fmap_NoDup_inj fname (OUTPUT_DIR w) e p.1 Hnd He Hpd Hn). }
  split; [by rewrite Hsecond|]. split; [exact Hsecond|].
  apply cleanup_old_files_within_limit.
Qed.

Lemma cleanup_old_files_idempotent_witness :
  NoDup (fname <$> OUTPUT_DIR world_locked) ∧
  fname <$> OUTPUT_DIR (cleanup_old_files world_locked).2 =
    ["merged_C.mp4"; "replaced_audio_A.mp4"; "merged_D.mp4"] ∧
  OUTPUT_DIR (cleanup_old_files (cleanup_old_files world_locked).2).2 =
    OUTPUT_DIR (cleanup_old_files world_locked).2.
Proof.
  assert (Hnd : NoDup (fname <$> OUTPUT_DIR world_locked))
    by (apply (bool_decide_unpack _); vm_compute; exact I).
  split; [exact Hnd|]. split; [vm_compute; reflexivity|].
  exact (proj1 (cleanup_old_files_idempotent world_locked Hnd)).
Defined.

(** C3, at the failing input: four artifacts under a limit of two.  The two
    oldest artifacts are deleted and the two newest kept; the record of the
    merge task B goes with its artifact, but the record of the
    replace-audio task A stays in the durable store and in the cache: for
    [replaced_audio_A] the split at the first underscore yields the
    identifier [audio_A], which names no task. *)
Theorem cleanup_old_files_keeps_replaced_audio_record :
  let w' := (cleanup_old_files world_over_limit).2 in
  fname <$> OUTPUT_DIR w' = ["merged_C.mp4"; "merged_D.mp4"] ∧
  TASKS_DIR w' !! "B" = None ∧ tasks w' !! "B" = None ∧
  split1_snd "_" (stem "replaced_audio_A.mp4") = Some "audio_A" ∧
  TASKS_DIR w' !! "A" = TASKS_DIR world_over_limit !! "A" ∧
  tasks w' !! "A" = tasks world_over_limit !! "A" ∧
  is_Some (TASKS_DIR w' !! "A").
Proof.
  vm_compute. repeat split; eauto.
Qed.

(** ** Workers: runs on concrete inputs *)

(** C7, at the failing input: the engine opens both inputs (10 s of video,
    25 s of audio) and [write_videofile] raises.  The task is marked failed
    and the run ends with both readers still open: no [close] was called.
    On the successful run of the same job all three [close] calls are made
    and no reader stays open. *)
Theorem failed_run_leaves_clips_open :
  let failing := run_job (engine_of 10 25 None) job_T world_T in
  let passing := run_job (engine_of 10 25 (Some 1000%Z)) job_T world_T in
  failing.1 = Return tt ∧
  td_status <$> tasks failing.2 !! "T" = Some FAILED ∧
  readers failing.2 = [(Video, "video_T.mp4"); (Audio, "audio_T.mp3")] ∧
  (∀ released, CallClose released ∉ engine_log failing.2) ∧
  td_status <$> tasks passing.2 !! "T" = Some SUCCESS ∧
  readers passing.2 = [].
Proof.
  vm_compute. repeat split; try reflexivity.
  intros released Hin.
  repeat (apply elem_of_cons in Hin as [Hin|Hin]; [discriminate Hin|]).
  by apply elem_of_nil in Hin.
Qed.


(** ** Workers: symbolic runs *)

Lemma update_task_status_hit task_id s k w d :
  tasks w !! task_id = Some d ->
  update_task_status task_id s k w =
    save_task task_id (dict_update d s (clock w) k) (set_clock Z.succ w).
Proof.
  intros H. unfold update_task_status, bind, get_task. by rewrite H.
Qed.

Lemma try_finally_quiet {A} (m : M A) (fin : M unit) (w : world) :
  (∀ w, (fin w).1 = Return tt) ->
  try_finally m fin w = ((m w).1, (fin (m w).2).2).
Proof.
  intros H. unfold try_finally. destruct (m w) as [r w1]. simpl.
  specialize (H w1). destruct (fin w1) as [r1 w2]. simpl in *. by subst.
Qed.

Lemma cleanup_temp_files_spec vp ap w :
  (cleanup_temp_files vp ap w).1 = Return tt ∧
  temp_frame w (cleanup_temp_files vp ap w).2.
Proof.
  cbv beta iota delta [cleanup_temp_files try_except bind
    unlink_temp_if_exists gets modify ret].
  repeat (case_bool_decide; simpl); by repeat split.
Qed.

Lemma cleanup_temp_files_returns vp ap w :
  (cleanup_temp_files vp ap w).1 = Return tt.
Proof. apply cleanup_temp_files_spec. Qed.

Lemma cleanup_temp_files_journal vp ap w :
  journal (cleanup_temp_files vp ap w).2 = journal w.
Proof. apply cleanup_temp_files_spec. Qed.

Lemma cleanup_temp_files_engine_log vp ap w :
  engine_log (cleanup_temp_files vp ap w).2 = engine_log w.
Proof. apply cleanup_temp_files_spec. Qed.

Lemma cleanup_temp_files_tasks vp ap w :
  tasks (cleanup_temp_files vp ap w).2 = tasks w.
Proof. apply cleanup_temp_files_spec. Qed.

Lemma cleanup_old_files_returns w : (cleanup_old_files w).1 = Return tt.
Proof. apply cleanup_old_files_spec. Qed.

Lemma cleanup_old_files_journal w :
  journal (cleanup_old_files w).2 = journal w.
Proof. apply cleanup_old_files_spec. Qed.

Lemma cleanup_old_files_engine_log w :
  engine_log (cleanup_old_files w).2 = engine_log w.
Proof. apply cleanup_old_files_spec. Qed.

Arguments update_task_status : simpl never.
Arguments cleanup_old_files : simpl never.
Arguments cleanup_temp_files : simpl never.
Arguments dict_update : simpl never.

(** Unfold the monad and the engine calls down to the next store update. *)
Ltac mred :=
  cbv beta iota zeta delta [bind ret raise modify gets log_call now
    VideoFileClip AudioFileClip write_videofile clip_loop subclip
    close close_clip close_composite set_audio output_size try_except
    merge_match_durations replace_match_durations py_div save_task
    process_merge_video_audio process_replace_audio run_job
    job_fn job_task_id job_video_path job_audio_path];
  cbn [fst snd duration clip_source clip_kind clip_ops
       tasks TASKS_DIR OUTPUT_DIR TEMP_DIR MAX_OUTPUT_FILES clock readers
       engine_log journal background_tasks
       set_tasks set_TASKS_DIR set_OUTPUT_DIR set_TEMP_DIR set_clock
       set_readers set_engine_log set_journal set_background_tasks].

(** Run one [update_task_status] on a task the cache holds. *)
Ltac hit :=
  erewrite update_task_status_hit
    by (simpl; apply lookup_insert_eq || eassumption);
  mred.

Ltac frames :=
  rewrite ?cleanup_temp_files_journal, ?cleanup_temp_files_engine_log,
    ?cleanup_temp_files_tasks, ?cleanup_old_files_journal,
    ?cleanup_old_files_engine_log.

Ltac close_appended :=
  eexists; split; [simpl; repeat rewrite <- app_assoc; reflexivity|].

Ltac close_records k s :=
  split; [|split; [|split]];
  [ repeat constructor
  | exists k, s; split; reflexivity
  | simpl; unfold dict_update; simpl; lia
  | repeat constructor; unfold dict_update; simpl; try discriminate;
    intros _; reflexivity ].

(** Step over the retention pass: it returns, and leaves the journal and
    the engine log as they were. *)
Ltac run_cleanup :=
  match goal with
  | |- context [cleanup_old_files ?W] =>
      let Hr := fresh "Hr" in
      let Hj := fresh "Hj" in
      let Hl := fresh "Hl" in
      pose proof (cleanup_old_files_returns W) as Hr;
      pose proof (cleanup_old_files_journal W) as Hj;
      pose proof (cleanup_old_files_engine_log W) as Hl;
      destruct (cleanup_old_files W) as [? ?];
      cbn [fst snd] in Hr, Hj, Hl; rewrite Hr; clear Hr;
      cbv beta iota; cbn [fst snd]; rewrite ?Hj, ?Hl; clear Hj Hl
  end.

Ltac finish k s :=
  frames; split; [reflexivity|]; split; close_appended;
  [close_records k s | repeat constructor].

(** From the encoder on, the two workers run alike. *)
Ltac encode_and_finish eng :=
  hit; destruct (encode eng _) as [size|]; mred;
  [ hit; run_cleanup; mred; finish 2%nat SUCCESS
  | hit; finish 2%nat FAILED ].

Lemma run_job_records (eng : engine) (f : background_fn)
    (task_id video_path audio_path : string) (w : world) (d : task_data) :
  tasks w !! task_id = Some d ->
  let j := {| job_fn := f; job_task_id := task_id;
              job_video_path := video_path; job_audio_path := audio_path |} in
  (run_job eng j w).1 = Return tt ∧
  appended (journal w) (journal (run_job eng j w).2)
    (worker_records f task_id (clock w)) ∧
  appended (engine_log w) (engine_log (run_job eng j w).2)
    (Forall (writes_to (artifact_name f task_id))).
Proof.
  intros Hd j. unfold j. clear j.
  destruct f; unfold run_job, job_fn, process_merge_video_audio,
    process_replace_audio;
    rewrite try_finally_quiet by apply cleanup_temp_files_returns;
    cbv beta iota delta [job_task_id job_video_path job_audio_path];
    cbn [fst snd]; unfold artifact_name; frames; mred; hit;
    (destruct (video_probe eng video_path) as [v|]; mred;
       [|hit; finish 0%nat FAILED]);
    (destruct (audio_probe eng audio_path) as [a|]; mred;
       [|hit; finish 0%nat FAILED]);
    (destruct (Qltb v a); mred;
       [hit; destruct (Qeq_bool v 0); mred;
          [hit; finish 1%nat FAILED | encode_and_finish eng]|]);
    (destruct (Qltb a v); mred; [|hit; encode_and_finish eng]).
  - hit. encode_and_finish eng.
  - hit. destruct (Qeq_bool a 0); mred;
      [hit; finish 1%nat FAILED | encode_and_finish eng].
Qed.

(** ** Routes *)

Lemma create_task_accepted task_id type fn vp ap vf af video_file audio_file
    m1 m2 w resp w' :
  create_task task_id type fn vp ap vf af video_file audio_file m1 m2 w =
    (Return resp, w') ->
  readable video_file = true ∧ readable audio_file = true ∧
  ∃ d0, created task_id type
          {| job_fn := fn; job_task_id := task_id; job_video_path := vp;
             job_audio_path := ap |} d0 w w'.
Proof.
  cbv beta iota zeta delta [create_task try_except bind save_upload modify ret
    raise now save_task abort_task_creation unlink_temp_if_exists gets].
  destruct (readable video_file), (readable audio_file);
    repeat (case_bool_decide; cbn [fst snd]); try discriminate.
  intros [= <- <-]. split; [reflexivity|]. split; [reflexivity|].
  eexists. unfold created. cbn.
  split; [apply lookup_insert_eq|]. by repeat split.
Qed.

Lemma create_task_readable task_id type fn vp ap vf af video_file audio_file
    m1 m2 w :
  readable video_file = true -> readable audio_file = true ->
  ∃ resp w' d0,
    create_task task_id type fn vp ap vf af video_file audio_file m1 m2 w =
      (Return resp, w') ∧
    created task_id type
      {| job_fn := fn; job_task_id := task_id; job_video_path := vp;
         job_audio_path := ap |} d0 w w'.
Proof.
  intros Hv Ha.
  cbv beta iota zeta delta [create_task try_except bind save_upload modify ret
    raise now save_task abort_task_creation unlink_temp_if_exists gets].
  rewrite Hv, Ha. do 3 eexists. split; [reflexivity|].
  unfold created. cbn. split; [apply lookup_insert_eq|]. by repeat split.
Qed.

(** Every route, when it accepts, stores a pending record and queues one job
    for its worker. *)
Lemma route_accepted (p : policy) task_id video_file audio_file w resp w' :
  route p task_id video_file audio_file w = (Return resp, w') ->
  ∃ vp ap d0,
    created task_id (task_type p)
      {| job_fn := worker p; job_task_id := task_id; job_video_path := vp;
         job_audio_path := ap |} d0 w w'.
Proof.
  destruct p; unfold route, merge_video_audio, merge_replace_audio,
    loop_video_to_audio, suffix_lower, bind, raise, ret;
    destruct (filename video_file) as [vn|], (filename audio_file) as [an|];
    cbv beta iota; intros H; try discriminate H;
    repeat (match type of H with
            | context [match ?x with _ => _ end] => destruct x
            end; try discriminate);
    apply create_task_accepted in H as (_ & _ & d0 & H); eauto.
Qed.

(** ** The status state machine *)

Lemma walk_progress (k : nat) (s : TaskStatus) :
  terminal s = true -> walk PROCESSING (replicate k PROCESSING ++ [s]).
Proof.
  intros Hs. induction k as [|k IH]; simpl.
  - split; [|exact I]. destruct s; try discriminate; constructor.
  - split; [constructor|exact IH].
Qed.

Lemma walk_terminal_last (s0 : TaskStatus) (l : list TaskStatus) (i : nat)
    (s : TaskStatus) :
  walk s0 l -> l !! i = Some s -> terminal s = true -> S i = length l.
Proof.
  revert s0 i. induction l as [|s1 l IH]; intros s0 i Hw Hi Hs;
    [discriminate|].
  destruct Hw as [_ Hw]. destruct i as [|i]; simpl in *.
  - injection Hi as ->. destruct l as [|s2 l]; [reflexivity|].
    destruct Hw as [Hstep _]. inversion Hstep; subst; discriminate.
  - f_equal. by apply (IH s1).
Qed.

Lemma walk_rank (s0 : TaskStatus) (l : list TaskStatus) (i : nat)
    (s s' : TaskStatus) :
  walk s0 l -> (s0 :: l) !! i = Some s -> (s0 :: l) !! S i = Some s' ->
  status_rank s <= status_rank s'.
Proof.
  revert s0 i. induction l as [|s1 l IH]; intros s0 i Hw Hi Hi';
    [destruct i; discriminate|].
  destruct Hw as [Hstep Hw]. destruct i as [|i]; simpl in *.
  - injection Hi as <-. injection Hi' as <-.
    inversion Hstep; simpl; lia.
  - by apply (IH s1 i).
Qed.

(** C4: for every accepted request and every behaviour of the engine, the
    records written for the task from its creation to the end of the
    worker's run are all for that task; their statuses start with pending
    and then follow pending -> processing -> {success, failed}; the rank of
    the status never decreases; a terminal status is the last record
    written; and every record carries a time stamp later than the one
    before it. *)
Theorem task_status_walk (eng : engine) (p : policy) (task_id : string)
    (video_file audio_file : UploadFile) (w w1 : world) (resp : response) :
  route p task_id video_file audio_file w = (Return resp, w1) ->
  ∃ j, background_tasks w1 = background_tasks w ++ [j] ∧
    appended (journal w) (journal (run_job eng j w1).2) (fun history =>
      Forall (fun e => e.1 = task_id) history ∧
      let statuses := (fun e => td_status e.2) <$> history in
      (∃ rest, statuses = PENDING :: rest ∧ walk PENDING rest) ∧
      (∀ i s s', statuses !! i = Some s -> statuses !! S i = Some s' ->
                 status_rank s <= status_rank s') ∧
      (∀ i s, statuses !! i = Some s -> terminal s = true ->
              S i = length statuses) ∧
      stamped (clock w) history).
Proof.
  intros Hroute.
  apply route_accepted in Hroute as (vp & ap & d0 & Hc).
  destruct Hc as (Hd0 & Hst & _ & Hup & Hclk & Hj & _ & Hbg).
  eexists. split; [exact Hbg|].
  destruct (run_job_records eng (worker p) task_id vp ap w1 d0 Hd0)
    as (_ & (new & Hnew & Hkey & (k & s & Hss & Hs) & Hstamp & _) & _).
  exists ((task_id, d0) :: new).
  split; [by rewrite Hnew, Hj, <- app_assoc|].
  assert (Hwalk : walk PENDING (replicate (S k) PROCESSING ++ [s])).
  { split; [constructor|]. by apply walk_progress. }
  split; [by constructor|]. cbn zeta. rewrite fmap_cons, Hss. cbn [snd].
  rewrite Hst.
  split; [eexists; split; [reflexivity|exact Hwalk]|].
  split; [intros i a b; by apply walk_rank|].
  split.
  - intros [|i] a Hi Ha; simpl in Hi.
    + injection Hi as <-. discriminate.
    + cbn [length]. f_equal. by apply (walk_terminal_last PENDING _ i a).
  - simpl. rewrite Hup. split; [lia|].
    replace (Z.succ (clock w) + 1)%Z with (clock w1) by lia. exact Hstamp.
Qed.

Lemma task_status_walk_witness :
  ∃ j, background_tasks world_T = background_tasks world0 ++ [j] ∧
    appended (journal world0)
      (journal (run_job (engine_of 10 25 (Some 1000%Z)) j world_T).2)
      (fun history =>
        Forall (fun e => e.1 = "T") history ∧
        let statuses := (fun e => td_status e.2) <$> history in
        (∃ rest, statuses = PENDING :: rest ∧ walk PENDING rest) ∧
        (∀ i s s', statuses !! i = Some s -> statuses !! S i = Some s' ->
                   status_rank s <= status_rank s') ∧
        (∀ i s, statuses !! i = Some s -> terminal s = true ->
                S i = length statuses) ∧
        stamped (clock world0) history).
Proof.
  apply (task_status_walk (engine_of 10 25 (Some 1000%Z)) merge "T" mp4 mp3
           world0 world_T
           {| resp_task_id := "T"; resp_status := PENDING;
              resp_message :=
                "Task created successfully. Use /task/{task_id}/status to check progress.";
              resp_created_at := 0 |}).
  vm_compute. reflexivity.
Defined.

(** ** The loop route and the merge route *)






(** The artifact of a loop_video task, on a concrete run. *)
Example loop_video_artifact :
  let w' := (run_job (engine_of 10 25 (Some 1000%Z)) job_T world_L).2 in
  fname <$> OUTPUT_DIR w' = ["merged_T.mp4"] ∧
  td_type <$> tasks w' !! "T" = Some "loop_video" ∧
  td_status <$> tasks w' !! "T" = Some SUCCESS ∧
  td_output_file <$> tasks w' !! "T" = Some (Some "merged_T.mp4").
Proof. vm_compute. repeat split; reflexivity. Qed.



Local Set Warnings "-clear-no-such-hyp".

(** ** Relations kept by computations *)

Section Keeps.

Context (R : relation world) `{!PreOrder R}.

Lemma keeps_ret {A} (a : A) : keeps R (ret a).
Proof. intros w. reflexivity. Qed.

Lemma keeps_raise {A} (e : exn) : keeps R (raise (A := A) e).
Proof. intros w. reflexivity. Qed.

Lemma keeps_gets {A} (f : world -> A) : keeps R (gets f).
Proof. intros w. reflexivity. Qed.

Lemma keeps_modify (f : world -> world) :
  (∀ w, R w (f w)) -> keeps R (modify f).
Proof. intros H w. apply H. Qed.

Lemma keeps_bind {A B} (m : M A) (k : A -> M B) :
  keeps R m -> (∀ a, keeps R (k a)) -> keeps R (bind m k).
Proof.
  intros Hm Hk w. unfold bind. specialize (Hm w).
  destruct (m w) as [[a|e] w1]; simpl in *; [|exact Hm].
  etransitivity; [exact Hm|apply Hk].
Qed.

Lemma keeps_try_except {A} (m : M A) (h : exn -> M A) :
  keeps R m -> (∀ e, keeps R (h e)) -> keeps R (try_except m h).
Proof.
  intros Hm Hh w. unfold try_except. specialize (Hm w).
  destruct (m w) as [[a|e] w1]; simpl in *; [exact Hm|].
  etransitivity; [exact Hm|apply Hh].
Qed.

Lemma keeps_try_finally {A} (m : M A) (fin : M unit) :
  keeps R m -> keeps R fin -> keeps R (try_finally m fin).
Proof.
  intros Hm Hf w. unfold try_finally. specialize (Hm w).
  destruct (m w) as [r w1]. specialize (Hf w1).
  destruct (fin w1) as [[[]|e] w2]; simpl in *; by etransitivity.
Qed.

Lemma keeps_for_each {A} (l : list A) (body : A -> M unit) :
  (∀ x, keeps R (body x)) -> keeps R (for_each l body).
Proof.
  intros Hb. induction l as [|x l IH]; simpl.
  - apply keeps_ret.
  - apply keeps_bind; [apply Hb|intros _; exact IH].
Qed.

End Keeps.

(** Take a computation apart along its binds and handlers. *)
Ltac keeps_steps :=
  repeat match goal with
    | |- keeps _ (ret _) => apply keeps_ret; solve [typeclasses eauto]
    | |- keeps _ (raise _) => apply keeps_raise; solve [typeclasses eauto]
    | |- keeps _ (gets _) => apply keeps_gets; solve [typeclasses eauto]
    | |- keeps _ (bind _ _) =>
        apply keeps_bind; [solve [typeclasses eauto]| |intros ?]
    | |- keeps _ (try_except _ _) =>
        apply keeps_try_except; [solve [typeclasses eauto]| |intros ?]
    | |- keeps _ (try_finally _ _) =>
        apply keeps_try_finally; [solve [typeclasses eauto]| |]
    | |- keeps _ (if ?b then _ else _) => destruct b
    | |- keeps _ (match ?x with Some _ => _ | None => _ end) => destruct x
    end.

Section Engine.

Context (R : relation world) `{!PreOrder R} `{!Ignores set_readers R}
  `{!Ignores set_engine_log R} `{!Ticks R}.

Lemma keeps_now : keeps R now.
Proof. intros w. apply ticks. Qed.

Lemma keeps_log_call (c : engine_call) : keeps R (log_call c).
Proof. intros w. apply (ignores (set := set_engine_log)). Qed.

Lemma keeps_py_div (x y : Q) : keeps R (py_div x y).
Proof. unfold py_div. keeps_steps. Qed.

Lemma keeps_clip_loop (c : clip) (n : Z) : keeps R (clip_loop c n).
Proof. unfold clip_loop. keeps_steps. apply keeps_log_call. Qed.

Lemma keeps_subclip (c : clip) (t0 t1 : Q) : keeps R (subclip c t0 t1).
Proof. unfold subclip. keeps_steps. apply keeps_log_call. Qed.

Lemma keeps_close_clip (c : clip) : keeps R (close c).
Proof.
  unfold close, close_clip. keeps_steps; [apply keeps_log_call|].
  apply keeps_modify. apply (ignores (set := set_readers)).
Qed.

Lemma keeps_close_composite (c : composite) : keeps R (close c).
Proof.
  unfold close, close_composite. keeps_steps; [apply keeps_log_call|].
  apply keeps_modify. apply (ignores (set := set_readers)).
Qed.

Lemma keeps_VideoFileClip (eng : engine) (path : string) :
  keeps R (VideoFileClip eng path).
Proof.
  unfold VideoFileClip. keeps_steps; [apply keeps_log_call|].
  apply keeps_modify. apply (ignores (set := set_readers)).
Qed.

Lemma keeps_AudioFileClip (eng : engine) (path : string) :
  keeps R (AudioFileClip eng path).
Proof.
  unfold AudioFileClip. keeps_steps; [apply keeps_log_call|].
  apply keeps_modify. apply (ignores (set := set_readers)).
Qed.

Lemma keeps_output_size (output : string) : keeps R (output_size output).
Proof. unfold output_size. keeps_steps. Qed.

(** The two workers keep what their store updates, their encoder call, the
    retention pass and the temporary-file cleanup keep. *)
Lemma keeps_run_job (eng : engine) (j : job) :
  (∀ s k, keeps R (update_task_status (job_task_id j) s k)) ->
  (∀ c, keeps R (write_videofile eng c
                   (artifact_name (job_fn j) (job_task_id j)))) ->
  keeps R cleanup_old_files ->
  keeps R (cleanup_temp_files (job_video_path j) (job_audio_path j)) ->
  keeps R (run_job eng j).
Proof.
  intros Hup Hwrite Hclean Htemp.
  destruct j as [[] task_id vp ap]; simpl in *;
    unfold run_job, process_merge_video_audio, process_replace_audio,
      merge_match_durations, replace_match_durations; simpl;
    keeps_steps;
    first [ apply Hup | apply Hwrite | exact Hclean | exact Htemp
          | apply keeps_VideoFileClip | apply keeps_AudioFileClip
          | apply keeps_py_div | apply keeps_clip_loop | apply keeps_subclip
          | apply keeps_close_clip | apply keeps_close_composite
          | apply keeps_output_size ].
Qed.

End Engine.

Section Retention.

Context (R : relation world) `{!PreOrder R}.

(** One guarded iteration of the retention loop keeps what an unlink and
    the removal of a task record (from the durable store, then from the
    cache if it is there) keep. *)
Lemma keeps_delete_old_file (f : file_entry) :
  (∀ name w, R w (set_OUTPUT_DIR (filter (fun e => fname e ≠ name)) w)) ->
  (∀ task_id w, split1_snd "_" (stem (fname f)) = Some task_id ->
     is_Some (TASKS_DIR w !! task_id) ->
     R w (if bool_decide (is_Some (tasks w !! task_id))
          then set_tasks (delete task_id) (set_TASKS_DIR (delete task_id) w)
          else set_TASKS_DIR (delete task_id) w)) ->
  keeps R (try_except (delete_old_file f) (fun _ => ret tt)).
Proof.
  intros Hunlink Hforget w.
  unfold try_except, delete_old_file, bind, unlink_output, gets, modify, ret,
    raise.
  destruct (list_find _ (OUTPUT_DIR w)) as [[i e]|]; [|reflexivity].
  destruct (locked e); [reflexivity|].
  pose proof (Hunlink (fname f) w) as H1.
  destruct (_ || _); [|exact H1].
  destruct (split1_snd _ _) as [task_id|] eqn:Hsplit; [|exact H1].
  cbn [fst snd].
  pose proof (Hforget task_id
    (set_OUTPUT_DIR (filter (fun e0 => fname e0 ≠ fname f)) w) eq_refl) as H2.
  change (TASKS_DIR (set_OUTPUT_DIR (filter (fun e0 => fname e0 ≠ fname f)) w))
    with (TASKS_DIR w) in *.
  destruct (bool_decide (is_Some (TASKS_DIR w !! task_id))) eqn:E;
    cbn [fst snd]; [|exact H1].
  apply bool_decide_eq_true_1 in E. specialize (H2 E).
  change (tasks (set_TASKS_DIR (delete task_id)
            (set_OUTPUT_DIR (filter (fun e0 => fname e0 ≠ fname f)) w)))
    with (tasks (set_OUTPUT_DIR (filter (fun e0 => fname e0 ≠ fname f)) w)).
  destruct (bool_decide _); cbn [fst snd]; by etransitivity.
Qed.

Lemma keeps_cleanup_old_files :
  (∀ f, keeps R (try_except (delete_old_file f) (fun _ => ret tt))) ->
  keeps R cleanup_old_files.
Proof.
  intros Hbody. unfold cleanup_old_files. keeps_steps.
  apply keeps_for_each; [apply _|]. intros [f t]. apply Hbody.
Qed.

End Retention.

Section Store.

Context (R : relation world) `{!PreOrder R} `{!Ignores set_tasks R}
  `{!Ignores set_TASKS_DIR R} `{!Ignores set_journal R} `{!Ticks R}.

Lemma keeps_save_task_ignored (task_id : string) (d : task_data) :
  keeps R (save_task task_id d).
Proof.
  intros w. unfold save_task, modify; simpl.
  etransitivity; [apply (ignores (set := set_TASKS_DIR))|].
  etransitivity; [apply (ignores (set := set_tasks))|].
  apply (ignores (set := set_journal)).
Qed.

Lemma keeps_get_task_ignored (task_id : string) : keeps R (get_task task_id).
Proof.
  intros w. unfold get_task.
  destruct (tasks w !! task_id); [reflexivity|].
  destruct (TASKS_DIR w !! task_id); [|reflexivity].
  apply (ignores (set := set_tasks)).
Qed.

Lemma keeps_update_task_status_ignored task_id s k :
  keeps R (update_task_status task_id s k).
Proof.
  unfold update_task_status. keeps_steps.
  - apply keeps_get_task_ignored.
  - intros w. apply ticks.
  - apply keeps_save_task_ignored.
Qed.

(** With the output directory ignored too, the retention pass is kept. *)
Lemma keeps_cleanup_old_files_ignored `{!Ignores set_OUTPUT_DIR R} :
  keeps R cleanup_old_files.
Proof.
  apply keeps_cleanup_old_files; [apply _|]. intros f.
  apply keeps_delete_old_file; [apply _| |].
  - intros name w. apply (ignores (set := set_OUTPUT_DIR)).
  - intros task_id w _ _. destruct (bool_decide _).
    + etransitivity; [apply (ignores (set := set_TASKS_DIR))|].
      apply (ignores (set := set_tasks)).
    + apply (ignores (set := set_TASKS_DIR)).
Qed.

End Store.

Section Files.

Context (R : relation world) `{!PreOrder R}.

Lemma keeps_write_videofile_ignored `{!Ignores set_engine_log R} `{!Ticks R}
    `{!Ignores set_OUTPUT_DIR R} (eng : engine) (c : composite)
    (output : string) :
  keeps R (write_videofile eng c output).
Proof.
  unfold write_videofile. keeps_steps.
  - intros w. apply (ignores (set := set_engine_log)).
  - intros w. apply ticks.
  - apply keeps_modify. apply (ignores (set := set_OUTPUT_DIR)).
Qed.

Lemma keeps_unlink_temp_if_exists `{!Ignores set_TEMP_DIR R} (path : string) :
  keeps R (unlink_temp_if_exists path).
Proof.
  unfold unlink_temp_if_exists. keeps_steps.
  apply keeps_modify. apply (ignores (set := set_TEMP_DIR)).
Qed.

Lemma keeps_cleanup_temp_files `{!Ignores set_TEMP_DIR R} (vp ap : string) :
  keeps R (cleanup_temp_files vp ap).
Proof.
  unfold cleanup_temp_files. keeps_steps; apply keeps_unlink_temp_if_exists.
Qed.

Lemma keeps_save_upload `{!Ignores set_TEMP_DIR R} (path : string)
    (file : UploadFile) :
  keeps R (save_upload path file).
Proof.
  unfold save_upload. keeps_steps.
  apply keeps_modify. apply (ignores (set := set_TEMP_DIR)).
Qed.

(** The routes that create a task keep what [save_task] keeps. *)
Lemma keeps_route `{!Ignores set_TEMP_DIR R} `{!Ticks R}
    `{!Ignores set_background_tasks R} (p : policy) (task_id : string)
    (video_file audio_file : UploadFile) :
  (∀ d, keeps R (save_task task_id d)) ->
  keeps R (route p task_id video_file audio_file).
Proof.
  intros Hsave.
  assert (Hcreate : ∀ type fn vp ap vf af m1 m2,
    keeps R (create_task task_id type fn vp ap vf af video_file audio_file
               m1 m2)).
  { intros. unfold create_task, abort_task_creation. keeps_steps;
      first [ apply keeps_save_upload | apply keeps_unlink_temp_if_exists
            | apply Hsave | (intros w; apply ticks)
            | apply keeps_modify; apply (ignores (set := set_background_tasks)) ]. }
  destruct p; unfold route, merge_video_audio, merge_replace_audio,
    loop_video_to_audio, suffix_lower; keeps_steps; apply Hcreate.
Qed.

(** The read-only routes keep what [get_task] keeps. *)
Lemma keeps_get_task_status (task_id : string) :
  keeps R (get_task task_id) -> keeps R (get_task_status task_id).
Proof. intros H. unfold get_task_status. by keeps_steps. Qed.

Lemma keeps_download_task_result (task_id : string) :
  keeps R (get_task task_id) -> keeps R (download_task_result task_id).
Proof. intros H. unfold download_task_result. by keeps_steps. Qed.

Lemma keeps_list_tasks (limit : Z) (status : option TaskStatus) :
  keeps R (list_tasks limit status).
Proof. unfold list_tasks. keeps_steps. Qed.

Lemma keeps_manual_cleanup `{!Ticks R} :
  keeps R cleanup_old_files -> keeps R manual_cleanup.
Proof.
  intros H. unfold manual_cleanup, count_output_entries. keeps_steps;
    first [exact H | (intros w; apply ticks)].
Qed.

End Files.

(** ** The limit route *)

Lemma update_max_files_rejects (max_files : Z) (w : world) :
  (max_files < 1 ∨ 100 < max_files)%Z ->
  ∃ detail, update_max_files max_files w = (Raise (HTTPException 400 detail), w).
Proof.
  intros H. unfold update_max_files.
  destruct (Z.ltb_spec max_files 1); [by eexists|].
  destruct (Z.ltb_spec 100 max_files); [by eexists|lia].
Qed.

Lemma update_max_files_accepts (max_files : Z) (w : world) :
  (1 <= max_files <= 100)%Z ->
  let w1 := set_MAX_OUTPUT_FILES (fun _ => Z.to_nat max_files) w in
  let triggered := (Z.to_nat max_files <? length (OUTPUT_DIR w))%nat in
  let w2 := if triggered then (cleanup_old_files w1).2 else w1 in
  update_max_files max_files w =
    (Return {| lim_old_limit := MAX_OUTPUT_FILES w;
               lim_new_limit := Z.to_nat max_files;
               lim_current_files := length (OUTPUT_DIR w2);
               lim_cleanup_triggered := triggered;
               lim_timestamp := clock w |},
     set_clock Z.succ w2).
Proof.
  intros H w1 triggered w2. unfold update_max_files.
  destruct (Z.ltb_spec max_files 1); [lia|].
  destruct (Z.ltb_spec 100 max_files); [lia|].
  cbv beta iota zeta delta [bind gets modify try_except count_output_entries
    ret now raise].
  cbn [fst snd MAX_OUTPUT_FILES OUTPUT_DIR set_MAX_OUTPUT_FILES].
  fold w1. fold triggered. subst w2. destruct triggered.
  - pose proof (cleanup_old_files_spec w1) as Hspec. cbv zeta in Hspec.
    destruct Hspec as (Hr & _ & Hf).
    destruct (cleanup_old_files w1) as [r w2]. cbn [fst snd] in *.
    subst r. destruct Hf as (_ & Hmax & Hclk & _).
    cbv beta iota. cbn [fst snd]. by rewrite Hmax, Hclk.
  - reflexivity.
Qed.

Lemma keeps_update_max_files (R : relation world) `{!PreOrder R} `{!Ticks R}
    (max_files : Z) :
  (∀ k w, (1 <= k <= 100)%nat -> R w (set_MAX_OUTPUT_FILES (fun _ => k) w)) ->
  keeps R cleanup_old_files ->
  keeps R (update_max_files max_files).
Proof.
  intros Hset Hclean w.
  destruct (decide (1 <= max_files <= 100)%Z) as [Hin|Hout].
  - rewrite (update_max_files_accepts _ _ Hin). cbn [snd].
    assert (H1 : R w (set_MAX_OUTPUT_FILES (fun _ => Z.to_nat max_files) w))
      by (apply Hset; lia).
    destruct (_ <? _)%nat.
    + etransitivity; [exact H1|]. etransitivity; [apply Hclean|apply ticks].
    + etransitivity; [exact H1|apply ticks].
  - destruct (update_max_files_rejects max_files w) as [detail ->]; [lia|].
    reflexivity.
Qed.

(** ** Every event *)

Lemma keeps_after (R : relation world) `{!PreOrder R}
    `{!Ignores set_readers R} `{!Ignores set_engine_log R} `{!Ticks R}
    `{!Ignores set_TEMP_DIR R} `{!Ignores set_background_tasks R} :
  (∀ task_id d, keeps R (save_task task_id d)) ->
  (∀ task_id, keeps R (get_task task_id)) ->
  (∀ task_id s k, keeps R (update_task_status task_id s k)) ->
  (∀ eng c output, keeps R (write_videofile eng c output)) ->
  keeps R cleanup_old_files ->
  (∀ k w, (1 <= k <= 100)%nat -> R w (set_MAX_OUTPUT_FILES (fun _ => k) w)) ->
  ∀ e w, R w (after e w).
Proof.
  intros Hsave Hget Hup Hwrite Hclean Hmax [] w; unfold after.
  - by apply keeps_route.
  - apply keeps_run_job; auto. by apply keeps_cleanup_temp_files.
  - by apply keeps_get_task_status.
  - by apply keeps_download_task_result.
  - by apply keeps_list_tasks.
  - by apply keeps_manual_cleanup.
  - by apply keeps_update_max_files.
Qed.

Lemma after_all_keeps (R : relation world) `{!PreOrder R} (es : list event) :
  (∀ e w, R w (after e w)) -> ∀ w, R w (after_all es w).
Proof.
  intros H. unfold after_all. induction es as [|e es IH]; intros w; simpl.
  - reflexivity.
  - etransitivity; [apply H|apply IH].
Qed.

(** ** Invariants *)

#[local] Instance preserved_preorder (P : world -> Prop) : PreOrder (preserved P).
Proof. split; unfold preserved; [intros w|intros w1 w2 w3]; auto. Qed.

(** *** The cache agrees with the durable store *)

Ltac ignored := intros f w; unfold preserved; exact (fun H => H).

#[local] Instance coherent_readers : Ignores set_readers (preserved cache_coherent).
Proof. ignored. Qed.
#[local] Instance coherent_engine_log :
  Ignores set_engine_log (preserved cache_coherent).
Proof. ignored. Qed.
#[local] Instance coherent_ticks : Ticks (preserved cache_coherent).
Proof. intros w. exact (fun H => H). Qed.
#[local] Instance coherent_TEMP_DIR :
  Ignores set_TEMP_DIR (preserved cache_coherent).
Proof. ignored. Qed.
#[local] Instance coherent_background_tasks :
  Ignores set_background_tasks (preserved cache_coherent).
Proof. ignored. Qed.
#[local] Instance coherent_OUTPUT_DIR :
  Ignores set_OUTPUT_DIR (preserved cache_coherent).
Proof. ignored. Qed.

Lemma save_task_coherent task_id d :
  keeps (preserved cache_coherent) (save_task task_id d).
Proof.
  intros w H id' d'. unfold save_task, modify; simpl.
  destruct (decide (task_id = id')) as [->|Hne].
  - by rewrite !lookup_insert_eq.
  - rewrite !lookup_insert_ne by done. apply H.
Qed.

Lemma get_task_coherent task_id :
  keeps (preserved cache_coherent) (get_task task_id).
Proof.
  intros w H. unfold get_task.
  destruct (tasks w !! task_id) eqn:E1; [exact H|].
  destruct (TASKS_DIR w !! task_id) eqn:E2; [|exact H].
  intros id' d'; simpl.
  destruct (decide (task_id = id')) as [->|Hne].
  - rewrite lookup_insert_eq. congruence.
  - rewrite lookup_insert_ne by done. apply H.
Qed.

Lemma update_task_status_coherent task_id s k :
  keeps (preserved cache_coherent) (update_task_status task_id s k).
Proof.
  unfold update_task_status. keeps_steps.
  - apply get_task_coherent.
  - intros w. apply ticks.
  - apply save_task_coherent.
Qed.

Lemma cleanup_old_files_coherent :
  keeps (preserved cache_coherent) cleanup_old_files.
Proof.
  apply keeps_cleanup_old_files; [apply _|]. intros f.
  apply keeps_delete_old_file; [apply _| |].
  - intros name w. exact (fun H => H).
  - intros task_id w _ _ H. case_bool_decide as Hc; intros id' d'; simpl.
    + destruct (decide (task_id = id')) as [->|Hne].
      * by rewrite lookup_delete_eq.
      * rewrite !lookup_delete_ne by done. apply H.
    + destruct (decide (task_id = id')) as [->|Hne].
      * intros Hd. exfalso. apply Hc. by eexists.
      * rewrite lookup_delete_ne by done. apply H.
Qed.

Lemma after_coherent (e : event) (w : world) :
  cache_coherent w -> cache_coherent (after e w).
Proof.
  apply (keeps_after (preserved cache_coherent)).
  - apply save_task_coherent.
  - apply get_task_coherent.
  - apply update_task_status_coherent.
  - intros. apply keeps_write_videofile_ignored; apply _.
  - apply cleanup_old_files_coherent.
  - intros k w' _. exact (fun H => H).
Qed.

(** *** Output names stay distinct *)

#[local] Instance distinct_readers : Ignores set_readers (preserved distinct_outputs).
Proof. ignored. Qed.
#[local] Instance distinct_engine_log :
  Ignores set_engine_log (preserved distinct_outputs).
Proof. ignored. Qed.
#[local] Instance distinct_ticks : Ticks (preserved distinct_outputs).
Proof. intros w. exact (fun H => H). Qed.
#[local] Instance distinct_TEMP_DIR :
  Ignores set_TEMP_DIR (preserved distinct_outputs).
Proof. ignored. Qed.
#[local] Instance distinct_background_tasks :
  Ignores set_background_tasks (preserved distinct_outputs).
Proof. ignored. Qed.
#[local] Instance distinct_tasks : Ignores set_tasks (preserved distinct_outputs).
Proof. ignored. Qed.
#[local] Instance distinct_TASKS_DIR :
  Ignores set_TASKS_DIR (preserved distinct_outputs).
Proof. ignored. Qed.
#[local] Instance distinct_journal :
  Ignores set_journal (preserved distinct_outputs).
Proof. ignored. Qed.

Lemma filter_names_NoDup (P : file_entry -> Prop) `{!∀ e, Decision (P e)}
    (dir : list file_entry) :
  NoDup (fname <$> dir) -> NoDup (fname <$> filter P dir).
Proof.
  intros Hnd. eapply sublist_NoDup; [exact Hnd|].
  apply fmap_sublist. apply sublist_filter.
Qed.

Lemma write_videofile_distinct eng c output :
  keeps (preserved distinct_outputs) (write_videofile eng c output).
Proof.
  unfold write_videofile. keeps_steps.
  - intros w. exact (fun H => H).
  - intros w. exact (fun H => H).
  - intros w H. unfold distinct_outputs in *. simpl.
    rewrite fmap_app. apply NoDup_app. split; [by apply filter_names_NoDup|].
    split; [|apply NoDup_singleton].
    intros name Hin Hnew. apply list_elem_of_fmap in Hin as (e & -> & He).
    apply list_elem_of_filter in He as [Hne _].
    apply list_elem_of_singleton in Hnew. by apply Hne.
Qed.

Lemma cleanup_old_files_distinct :
  keeps (preserved distinct_outputs) cleanup_old_files.
Proof.
  apply keeps_cleanup_old_files; [apply _|]. intros f.
  apply keeps_delete_old_file; [apply _| |].
  - intros name w H. by apply filter_names_NoDup.
  - intros task_id w _ _ H. by destruct (bool_decide _).
Qed.

Lemma after_distinct (e : event) (w : world) :
  distinct_outputs w -> distinct_outputs (after e w).
Proof.
  apply (keeps_after (preserved distinct_outputs)).
  - intros. apply keeps_save_task_ignored; apply _.
  - intros. apply keeps_get_task_ignored; apply _.
  - intros. apply keeps_update_task_status_ignored; apply _.
  - apply write_videofile_distinct.
  - apply cleanup_old_files_distinct.
  - intros k w' _. exact (fun H => H).
Qed.

(** *** The limit stays between 1 and 100 *)

#[local] Instance limit_readers : Ignores set_readers (preserved limit_in_range).
Proof. ignored. Qed.
#[local] Instance limit_engine_log :
  Ignores set_engine_log (preserved limit_in_range).
Proof. ignored. Qed.
#[local] Instance limit_ticks : Ticks (preserved limit_in_range).
Proof. intros w. exact (fun H => H). Qed.
#[local] Instance limit_TEMP_DIR : Ignores set_TEMP_DIR (preserved limit_in_range).
Proof. ignored. Qed.
#[local] Instance limit_background_tasks :
  Ignores set_background_tasks (preserved limit_in_range).
Proof. ignored. Qed.
#[local] Instance limit_tasks : Ignores set_tasks (preserved limit_in_range).
Proof. ignored. Qed.
#[local] Instance limit_TASKS_DIR :
  Ignores set_TASKS_DIR (preserved limit_in_range).
Proof. ignored. Qed.
#[local] Instance limit_journal : Ignores set_journal (preserved limit_in_range).
Proof. ignored. Qed.
#[local] Instance limit_OUTPUT_DIR :
  Ignores set_OUTPUT_DIR (preserved limit_in_range).
Proof. ignored. Qed.

Lemma after_limit (e : event) (w : world) :
  limit_in_range w -> limit_in_range (after e w).
Proof.
  apply (keeps_after (preserved limit_in_range)).
  - intros. apply keeps_save_task_ignored; apply _.
  - intros. apply keeps_get_task_ignored; apply _.
  - intros. apply keeps_update_task_status_ignored; apply _.
  - intros. apply keeps_write_videofile_ignored; apply _.
  - apply keeps_cleanup_old_files_ignored; apply _.
  - intros k w' Hk _. exact Hk.
Qed.

(** X1: the in-memory cache never holds a record that the durable store
    lacks or holds differently: if this is so in a state (as it is when the
    process starts, with an empty cache), it is so after any sequence of
    requests and background runs, each taken to its end before the next
    starts. *)
Theorem cache_stays_coherent (es : list event) (w : world) :
  cache_coherent w -> cache_coherent (after_all es w).
Proof.
  exact (after_all_keeps (preserved cache_coherent) es after_coherent w).
Qed.

Lemma cache_stays_coherent_witness :
  cache_coherent
    (after_all [PostTask merge "T" mp4 mp3;
                RunJob (engine_of 10 25 (Some 1000%Z)) job_T;
                GetTaskStatus "T"; PostCleanup] world0).
Proof.
  apply cache_stays_coherent. intros task_id d H.
  change (tasks world0) with (∅ : gmap string task_data) in H.
  by rewrite lookup_empty in H.
Defined.

(** X2: the names in the output directory stay distinct through any
    sequence of requests and background runs. *)
Theorem outputs_stay_distinct (es : list event) (w : world) :
  distinct_outputs w -> distinct_outputs (after_all es w).
Proof.
  exact (after_all_keeps (preserved distinct_outputs) es after_distinct w).
Qed.

Lemma outputs_stay_distinct_witness :
  distinct_outputs
    (after_all [PostTask merge "T" mp4 mp3;
                RunJob (engine_of 10 25 (Some 1000%Z)) job_T;
                RunJob (engine_of 10 25 (Some 1000%Z)) job_T;
                PostCleanup] world0).
Proof. apply outputs_stay_distinct. apply NoDup_nil_2. Defined.

(** X3: the retention limit stays between 1 and 100 through any sequence
    of requests and background runs, whatever values are posted to
    [/config/max-files]. *)
Theorem limit_stays_in_range (es : list event) (w : world) :
  limit_in_range w -> limit_in_range (after_all es w).
Proof.
  exact (after_all_keeps (preserved limit_in_range) es after_limit w).
Qed.

Lemma limit_stays_in_range_witness :
  limit_in_range
    (after_all [PostMaxFiles 0; PostMaxFiles 500; PostMaxFiles 3; PostCleanup]
       world0).
Proof.
  apply limit_stays_in_range. unfold limit_in_range. simpl. lia.
Defined.

(** ** Task store: reads and updates *)

(** X4: a saved record is read back as it was saved, from the cache and,
    once the cache is lost (a restart), from the durable store, which also
    puts it back into the cache. *)
Theorem saved_task_is_read_back (task_id : string) (d : task_data) (w : world) :
  let w1 := (save_task task_id d w).2 in
  let restarted := set_tasks (fun _ => ∅) w1 in
  get_task task_id w1 = (Return (Some d), w1) ∧
  (get_task task_id restarted).1 = Return (Some d) ∧
  tasks (get_task task_id restarted).2 !! task_id = Some d.
Proof.
  unfold get_task, save_task, modify; simpl.
  rewrite !lookup_insert_eq, lookup_empty. simpl.
  split; [reflexivity|]. split; [reflexivity|]. apply lookup_insert_eq.
Qed.

(** X5: reading a task is repeatable: a second [get_task] returns what the
    first returned and changes nothing; no read changes the durable store; a
    read of an unknown identifier returns nothing and leaves the state as
    it was. *)
Theorem get_task_is_repeatable (task_id : string) (w : world) :
  let r := get_task task_id w in
  get_task task_id r.2 = (r.1, r.2) ∧
  TASKS_DIR r.2 = TASKS_DIR w ∧
  (tasks w !! task_id = None -> TASKS_DIR w !! task_id = None ->
   r = (Return None, w)).
Proof.
  unfold get_task.
  destruct (tasks w !! task_id) as [d|] eqn:E1.
  { simpl. rewrite E1. by repeat split. }
  destruct (TASKS_DIR w !! task_id) as [d|] eqn:E2; simpl.
  - rewrite lookup_insert_eq. by repeat split.
  - rewrite E1, E2. by repeat split.
Qed.

(** On an identifier that neither the cache nor the durable store knows,
    [update_task_status] does nothing and does not fail. *)
Lemma update_task_status_miss (task_id : string) (s : TaskStatus)
    (k : kwargs) (w : world) :
  tasks w !! task_id = None -> TASKS_DIR w !! task_id = None ->
  update_task_status task_id s k w = (Return tt, w).
Proof.
  intros H1 H2. unfold update_task_status, bind, get_task.
  by rewrite H1, H2.
Qed.

(** X6: [update_task_status] on a known task stores, in the cache and in
    the durable store alike, a record with the new status, stamped with the
    time of the call; identifier, type, creation time and file names are
    those of the record read, and so is every key the call does not pass. *)
Theorem update_merges_into_record (task_id : string) (s : TaskStatus)
    (k : kwargs) (w : world) (d : task_data) :
  (get_task task_id w).1 = Return (Some d) ->
  let w' := (update_task_status task_id s k w).2 in
  ∃ d', tasks w' !! task_id = Some d' ∧ TASKS_DIR w' !! task_id = Some d' ∧
    td_status d' = s ∧ td_updated_at d' = clock w ∧
    td_task_id d' = td_task_id d ∧ td_type d' = td_type d ∧
    td_created_at d' = td_created_at d ∧
    td_video_filename d' = td_video_filename d ∧
    td_audio_filename d' = td_audio_filename d ∧
    td_message d' = default (td_message d) (kw_message k) ∧
    (kw_output_file k = None -> td_output_file d' = td_output_file d) ∧
    (kw_file_size k = None -> td_file_size d' = td_file_size d) ∧
    (kw_error k = None -> td_error d' = td_error d).
Proof.
  intros Hget w'. exists (dict_update d s (clock w) k).
  assert (Hw' : w' = (save_task task_id (dict_update d s (clock w) k)
                        (set_clock Z.succ (get_task task_id w).2)).2).
  { unfold w', update_task_status, bind.
    destruct (get_task task_id w) as [r w1] eqn:E. simpl in Hget. subst r.
    unfold now. simpl.
    assert (clock w1 = clock w) as ->; [|reflexivity].
    unfold get_task in E.
    destruct (tasks w !! task_id); [by injection E as _ <-|].
    destruct (TASKS_DIR w !! task_id); by injection E as _ <-. }
  rewrite Hw'. unfold save_task, modify, dict_update; simpl.
  rewrite !lookup_insert_eq. repeat split; try reflexivity; by intros ->.
Qed.

Lemma update_merges_into_record_witness :
  ∃ d', tasks (update_task_status "T" PROCESSING (kw "step") world_T).2 !! "T"
          = Some d' ∧
        td_status d' = PROCESSING ∧ td_type d' = "merge" ∧
        td_message d' = "step" ∧ td_video_filename d' = "clip.mp4".
Proof.
  edestruct (update_merges_into_record "T" PROCESSING (kw "step") world_T)
    as (d' & H1 & _ & H2 & _ & _ & H3 & _ & H4 & _ & H5 & _).
  { vm_compute. reflexivity. }
  exists d'. by rewrite H1, H2, H3, H4, H5.
Defined.

(** ** Workers: what every run does and never does *)

Lemma try_except_returns_unit (m : M unit) (h : exn -> M unit) (w : world) :
  (∀ e w', (h e w').1 = Return tt) -> (try_except m h w).1 = Return tt.
Proof.
  intros H. unfold try_except.
  destruct (m w) as [[[]|e] w1]; [reflexivity|apply H].
Qed.

Lemma cleanup_temp_files_removes (vp ap : string) (w : world) :
  TEMP_DIR (cleanup_temp_files vp ap w).2 = TEMP_DIR w ∖ {[vp]} ∖ {[ap]}.
Proof.
  cbv beta iota delta [cleanup_temp_files try_except bind
    unlink_temp_if_exists gets modify ret].
  repeat (case_bool_decide; cbn [fst snd TEMP_DIR set_TEMP_DIR]); set_solver.
Qed.

#[local] Instance removes_at_most_preorder (vp ap : string) : PreOrder (removes_at_most vp ap).
Proof.
  split; unfold removes_at_most; [intros w|intros w1 w2 w3]; set_solver.
Qed.
#[local] Instance removes_at_most_readers (vp ap : string) :
  Ignores set_readers (removes_at_most vp ap).
Proof. intros f w. unfold removes_at_most; simpl. set_solver. Qed.
#[local] Instance removes_at_most_engine_log (vp ap : string) :
  Ignores set_engine_log (removes_at_most vp ap).
Proof. intros f w. unfold removes_at_most; simpl. set_solver. Qed.
#[local] Instance removes_at_most_ticks (vp ap : string) : Ticks (removes_at_most vp ap).
Proof. intros w. unfold removes_at_most; simpl. set_solver. Qed.
#[local] Instance removes_at_most_tasks (vp ap : string) :
  Ignores set_tasks (removes_at_most vp ap).
Proof. intros f w. unfold removes_at_most; simpl. set_solver. Qed.
#[local] Instance removes_at_most_TASKS_DIR (vp ap : string) :
  Ignores set_TASKS_DIR (removes_at_most vp ap).
Proof. intros f w. unfold removes_at_most; simpl. set_solver. Qed.
#[local] Instance removes_at_most_journal (vp ap : string) :
  Ignores set_journal (removes_at_most vp ap).
Proof. intros f w. unfold removes_at_most; simpl. set_solver. Qed.
#[local] Instance removes_at_most_OUTPUT_DIR (vp ap : string) :
  Ignores set_OUTPUT_DIR (removes_at_most vp ap).
Proof. intros f w. unfold removes_at_most; simpl. set_solver. Qed.

Lemma cleanup_temp_files_removes_at_most (vp ap : string) :
  keeps (removes_at_most vp ap) (cleanup_temp_files vp ap).
Proof.
  intros w. unfold removes_at_most. rewrite cleanup_temp_files_removes.
  set_solver.
Qed.

Lemma run_job_returns (eng : engine) (j : job) (w : world) :
  (run_job eng j w).1 = Return tt.
Proof.
  destruct j as [[] task_id vp ap];
    unfold run_job, process_merge_video_audio, process_replace_audio;
    simpl; rewrite try_finally_quiet by apply cleanup_temp_files_returns;
    cbn [fst]; apply try_except_returns_unit; intros;
    apply update_task_status_returns.
Qed.

(** X7: a worker never lets an exception escape, and when it ends the two
    temporary input files of its job are gone, whatever happened in between;
    no other temporary file is touched.  (Unlinking a temporary file is
    taken never to fail.) *)
Theorem run_job_returns_and_removes_inputs (eng : engine) (j : job) (w : world) :
  (run_job eng j w).1 = Return tt ∧
  TEMP_DIR (run_job eng j w).2 =
    TEMP_DIR w ∖ {[job_video_path j]} ∖ {[job_audio_path j]}.
Proof.
  split.
  - apply run_job_returns.
  - assert (Hrel : removes_at_most (job_video_path j) (job_audio_path j) w
                     (run_job eng j w).2).
    { apply (keeps_run_job (removes_at_most _ _) eng j).
      - intros. apply keeps_update_task_status_ignored; apply _.
      - intros. apply keeps_write_videofile_ignored; apply _.
      - apply keeps_cleanup_old_files_ignored; apply _.
      - apply cleanup_temp_files_removes_at_most. }
    assert (Hgone : (job_video_path j ∉ TEMP_DIR ((run_job eng j w).2)) ∧
                    (job_audio_path j ∉ TEMP_DIR ((run_job eng j w).2))).
    { destruct j as [[] task_id vp ap];
        unfold run_job, process_merge_video_audio, process_replace_audio;
        simpl; rewrite try_finally_quiet by apply cleanup_temp_files_returns;
        cbn [snd]; rewrite cleanup_temp_files_removes; set_solver. }
    destruct Hrel as [H1 H2]. set_solver.
Qed.

#[local] Instance others_untouched_preorder task_id :
  PreOrder (others_untouched task_id).
Proof.
  split.
  - intros w. split; [by intros|]. exists []. by rewrite app_nil_r.
  - intros w1 w2 w3 [H1 (n1 & E1 & F1)] [H2 (n2 & E2 & F2)]. split.
    + intros other d Hne. destruct (H1 other d Hne), (H2 other d Hne). auto.
    + exists (n1 ++ n2). split; [by rewrite E2, E1, app_assoc|].
      by apply Forall_app.
Qed.

Ltac untouched :=
  intros f w; split; [by intros|]; exists []; simpl; by rewrite app_nil_r.

#[local] Instance others_untouched_readers task_id :
  Ignores set_readers (others_untouched task_id).
Proof. untouched. Qed.
#[local] Instance others_untouched_engine_log task_id :
  Ignores set_engine_log (others_untouched task_id).
Proof. untouched. Qed.
#[local] Instance others_untouched_ticks task_id :
  Ticks (others_untouched task_id).
Proof. intros w. split; [by intros|]. exists []. simpl. by rewrite app_nil_r. Qed.
#[local] Instance others_untouched_OUTPUT_DIR task_id :
  Ignores set_OUTPUT_DIR (others_untouched task_id).
Proof. untouched. Qed.
#[local] Instance others_untouched_TEMP_DIR task_id :
  Ignores set_TEMP_DIR (others_untouched task_id).
Proof. untouched. Qed.

Lemma save_task_others_untouched task_id d :
  keeps (others_untouched task_id) (save_task task_id d).
Proof.
  intros w. unfold save_task, modify. cbn [snd]. split.
  - intros other d' Hne. simpl. rewrite !lookup_insert_ne by done. auto.
  - exists [(task_id, d)]. split; [reflexivity|]. by repeat constructor.
Qed.

Lemma get_task_others_untouched task_id :
  keeps (others_untouched task_id) (get_task task_id).
Proof.
  intros w. unfold get_task.
  destruct (tasks w !! task_id); [reflexivity|].
  destruct (TASKS_DIR w !! task_id); [|reflexivity].
  cbn [snd]. split.
  - intros other d' Hne. simpl. rewrite lookup_insert_ne by done. auto.
  - exists []. simpl. by rewrite app_nil_r.
Qed.

Lemma update_task_status_others_untouched task_id s k :
  keeps (others_untouched task_id) (update_task_status task_id s k).
Proof.
  unfold update_task_status. keeps_steps.
  - apply get_task_others_untouched.
  - intros w. apply ticks.
  - apply save_task_others_untouched.
Qed.

Lemma cleanup_old_files_others_untouched task_id :
  keeps (others_untouched task_id) cleanup_old_files.
Proof.
  apply keeps_cleanup_old_files; [apply _|]. intros f.
  apply keeps_delete_old_file; [apply _| |].
  - intros name w. apply (ignores (set := set_OUTPUT_DIR)).
  - intros gone w _ _.
    destruct (bool_decide _); (split; [|exists []; simpl; by rewrite app_nil_r]);
      intros other d Hne; simpl; split; intros H;
      try (apply lookup_delete_Some in H as [_ H]); exact H.
Qed.

(** X8: a worker writes no record but its own task's: after a run, the
    record of any other task, in the durable store and in the cache, is the
    one that was there before (the retention pass may have removed it), and
    every record written during the run is one of the job's task. *)
Theorem run_job_leaves_other_tasks (eng : engine) (j : job) (w : world) :
  (∀ other d, other ≠ job_task_id j ->
     (TASKS_DIR (run_job eng j w).2 !! other = Some d ->
      TASKS_DIR w !! other = Some d) ∧
     (tasks (run_job eng j w).2 !! other = Some d ->
      tasks w !! other = Some d)) ∧
  appended (journal w) (journal (run_job eng j w).2)
    (Forall (fun e => e.1 = job_task_id j)).
Proof.
  apply (keeps_run_job (others_untouched (job_task_id j)) eng j).
  - apply update_task_status_others_untouched.
  - intros. apply keeps_write_videofile_ignored; apply _.
  - apply cleanup_old_files_others_untouched.
  - apply keeps_cleanup_temp_files; apply _.
Qed.

#[local] Instance stays_unknown_preorder task_id :
  PreOrder (stays_unknown task_id).
Proof.
  split; unfold stays_unknown.
  - intros w [H1 H2]. auto.
  - intros w1 w2 w3 H12 H23 H. destruct (H12 H) as (H1 & H2 & E).
    destruct (H23 (conj H1 H2)) as (H1' & H2' & E'). repeat split; congruence.
Qed.

Ltac unknown := intros f w [H1 H2]; simpl; auto.

#[local] Instance stays_unknown_readers task_id :
  Ignores set_readers (stays_unknown task_id).
Proof. unknown. Qed.
#[local] Instance stays_unknown_engine_log task_id :
  Ignores set_engine_log (stays_unknown task_id).
Proof. unknown. Qed.
#[local] Instance stays_unknown_ticks task_id : Ticks (stays_unknown task_id).
Proof. intros w [H1 H2]; simpl; auto. Qed.
#[local] Instance stays_unknown_OUTPUT_DIR task_id :
  Ignores set_OUTPUT_DIR (stays_unknown task_id).
Proof. unknown. Qed.
#[local] Instance stays_unknown_TEMP_DIR task_id :
  Ignores set_TEMP_DIR (stays_unknown task_id).
Proof. unknown. Qed.

Lemma update_task_status_stays_unknown task_id s k :
  keeps (stays_unknown task_id) (update_task_status task_id s k).
Proof.
  intros w [H1 H2]. by rewrite (update_task_status_miss _ _ _ _ H1 H2).
Qed.

Lemma cleanup_old_files_stays_unknown task_id :
  keeps (stays_unknown task_id) cleanup_old_files.
Proof.
  apply keeps_cleanup_old_files; [apply _|]. intros f.
  apply keeps_delete_old_file; [apply _| |].
  - intros name w. apply (ignores (set := set_OUTPUT_DIR)).
  - intros gone w _ _ [H1 H2].
    destruct (bool_decide _); simpl; repeat split; try done;
      apply lookup_delete_None; auto.
Qed.

(** X9: when the task of a job is unknown to both stores (its record was
    evicted, or never written), the worker still runs to its end but writes
    nothing: the task stays unknown and no record is persisted. *)
Theorem run_job_of_unknown_task_writes_nothing (eng : engine) (j : job)
    (w : world) :
  tasks w !! job_task_id j = None -> TASKS_DIR w !! job_task_id j = None ->
  (run_job eng j w).1 = Return tt ∧
  tasks (run_job eng j w).2 !! job_task_id j = None ∧
  TASKS_DIR (run_job eng j w).2 !! job_task_id j = None ∧
  journal (run_job eng j w).2 = journal w.
Proof.
  intros H1 H2.
  split; [apply run_job_returns|].
  apply (keeps_run_job (stays_unknown (job_task_id j)) eng j); [| | | |auto].
  - apply update_task_status_stays_unknown.
  - intros. apply keeps_write_videofile_ignored; apply _.
  - apply cleanup_old_files_stays_unknown.
  - apply keeps_cleanup_temp_files; apply _.
Qed.

Lemma run_job_of_unknown_task_writes_nothing_witness :
  (run_job (engine_of 10 25 (Some 1000%Z)) job_T world0).1 = Return tt ∧
  tasks (run_job (engine_of 10 25 (Some 1000%Z)) job_T world0).2 !! "T" = None ∧
  TASKS_DIR (run_job (engine_of 10 25 (Some 1000%Z)) job_T world0).2 !! "T"
    = None ∧
  journal (run_job (engine_of 10 25 (Some 1000%Z)) job_T world0).2 = [].
Proof.
  apply (run_job_of_unknown_task_writes_nothing
           (engine_of 10 25 (Some 1000%Z)) job_T world0); reflexivity.
Defined.

(** ** Strings: names of artifacts *)

Lemma append_nil (t : string) : "" +:+ t = t.
Proof. reflexivity. Qed.

Lemma append_cons (a : ascii) (s t : string) :
  String a s +:+ t = String a (s +:+ t).
Proof. reflexivity. Qed.

Lemma rfind_app (c : ascii) (s t : string) :
  rfind c (s +:+ t) =
    match rfind c t with
    | Some i => Some (String.length s + i)%nat
    | None => rfind c s
    end.
Proof.
  induction s as [|a s IH].
  - rewrite append_nil. by destruct (rfind c t).
  - rewrite append_cons. simpl. rewrite IH. by destruct (rfind c t).
Qed.

Lemma length_app_string (s t : string) :
  String.length (s +:+ t) = (String.length s + String.length t)%nat.
Proof.
  induction s as [|a s IH]; [reflexivity|].
  rewrite append_cons. simpl. by rewrite IH.
Qed.

Lemma substring_all (t : string) : substring 0 (String.length t) t = t.
Proof. induction t as [|a t IH]; simpl; [reflexivity|by rewrite IH]. Qed.

Lemma substring_prefix (s t : string) :
  substring 0 (String.length s) (s +:+ t) = s.
Proof.
  induction s as [|a s IH].
  - rewrite append_nil. destruct t; reflexivity.
  - rewrite append_cons. simpl. by rewrite IH.
Qed.

Lemma substring_suffix (s t : string) :
  substring (String.length s) (String.length t) (s +:+ t) = t.
Proof.
  induction s as [|a s IH]; [apply substring_all|].
  rewrite append_cons. exact IH.
Qed.

(** A non-empty name followed by an extension of the usual shape splits
    where one expects. *)
Lemma split_extension (s ext : string) :
  s ≠ "" -> rfind "." ext = Some 0%nat -> (2 <= String.length ext)%nat ->
  stem (s +:+ ext) = s ∧ suffix (s +:+ ext) = ext.
Proof.
  intros Hs Hdot Hlen.
  assert (Hpos : (0 < String.length s)%nat) by (destruct s; simpl; [done|lia]).
  unfold stem, suffix, has_suffix_at.
  rewrite rfind_app, Hdot, length_app_string, Nat.add_0_r.
  destruct (Nat.ltb_spec 0 (String.length s)); [|lia].
  destruct (Nat.ltb_spec (String.length s)
              (String.length s + String.length ext - 1)); [|lia].
  simpl. split; [apply substring_prefix|].
  replace (String.length s + String.length ext - String.length s)%nat
    with (String.length ext) by lia.
  apply substring_suffix.
Qed.

Lemma stem_merged (task_id : string) :
  stem ("merged_" +:+ task_id +:+ ".mp4") = "merged_" +:+ task_id.
Proof.
  change ("merged_" +:+ task_id +:+ ".mp4")
    with (("merged_" +:+ task_id) +:+ ".mp4").
  by apply split_extension; [|reflexivity|simpl; lia].
Qed.

Lemma stem_replaced_audio (task_id : string) :
  stem ("replaced_audio_" +:+ task_id +:+ ".mp4") = "replaced_audio_" +:+ task_id.
Proof.
  change ("replaced_audio_" +:+ task_id +:+ ".mp4")
    with (("replaced_audio_" +:+ task_id) +:+ ".mp4").
  by apply split_extension; [|reflexivity|simpl; lia].
Qed.

Lemma merged_name_task_id (task_id : string) :
  let filename := stem ("merged_" +:+ task_id +:+ ".mp4") in
  startswith "merged_" filename || startswith "replaced_audio_" filename = true ∧
  split1_snd "_" filename = Some task_id.
Proof.
  cbv zeta. rewrite stem_merged. split; [|reflexivity].
  unfold startswith. by destruct task_id.
Qed.

Lemma replaced_audio_name_task_id (task_id : string) :
  let filename := stem ("replaced_audio_" +:+ task_id +:+ ".mp4") in
  startswith "merged_" filename || startswith "replaced_audio_" filename = true ∧
  split1_snd "_" filename = Some ("audio_" +:+ task_id).
Proof.
  cbv zeta. rewrite stem_replaced_audio. split; [|reflexivity].
  unfold startswith. by destruct task_id.
Qed.

(** ** Retention: which files stay, which records go *)

Lemma glob_output_files_is_file (w : world) (p : file_entry * Z) :
  p ∈ glob_output_files w -> is_file p.1 = true.
Proof.
  unfold glob_output_files. intros Hp.
  apply list_elem_of_fmap in Hp as (e & -> & He).
  by apply list_elem_of_filter in He as [He _].
Qed.

Lemma filter_none {A} (P : A -> Prop) `{!∀ x, Decision (P x)} (l : list A) :
  Forall (fun x => ¬ P x) l -> filter P l = [].
Proof.
  induction 1 as [|x l Hx _ IH]; [reflexivity|].
  by rewrite filter_cons_False.
Qed.

Lemma sort_newest_first_length l : length (sort_newest_first l) = length l.
Proof. by rewrite sort_newest_first_perm. Qed.

(** With distinct names and no locked file, the files left by a pass are
    the newest ones, up to the limit. *)
Lemma cleanup_old_files_unlocked (w : world) :
  distinct_outputs w -> (∀ e, e ∈ OUTPUT_DIR w -> locked e = false) ->
  sort_newest_first (glob_output_files (cleanup_old_files w).2) =
    take (MAX_OUTPUT_FILES w) (sort_newest_first (glob_output_files w)).
Proof.
  intros Hnd Hfree.
  destruct (le_lt_dec (length (glob_output_files w)) (MAX_OUTPUT_FILES w))
    as [Hle|Hlt].
  { rewrite (cleanup_old_files_within_limit w Hle). symmetry. apply take_ge.
    by rewrite sort_newest_first_length. }
  destruct (cleanup_old_files_leaves w Hnd Hlt) as [_ ->].
  rewrite filter_none; [by rewrite app_nil_r|].
  apply Forall_forall. intros q Hq Hl.
  rewrite Hfree in Hl; [discriminate|].
  apply glob_output_files_elem.
  rewrite <- (sort_newest_first_perm (glob_output_files w)).
  by apply (subseteq_drop (MAX_OUTPUT_FILES w)).
Qed.

(** X10: one retention pass over a directory with distinct names keeps the
    [MAX_OUTPUT_FILES] newest files, leaves alone whatever is not a regular
    file, and creates nothing; when no file is locked, the files left are
    exactly the [MAX_OUTPUT_FILES] newest, newest first. *)
Theorem cleanup_old_files_keeps_newest (w : world) :
  distinct_outputs w ->
  let sorted := sort_newest_first (glob_output_files w) in
  let w1 := (cleanup_old_files w).2 in
  (∀ p, p ∈ take (MAX_OUTPUT_FILES w) sorted -> p.1 ∈ OUTPUT_DIR w1) ∧
  (∀ e, e ∈ OUTPUT_DIR w -> is_file e = false -> e ∈ OUTPUT_DIR w1) ∧
  (∀ e, e ∈ OUTPUT_DIR w1 -> e ∈ OUTPUT_DIR w) ∧
  ((∀ e, e ∈ OUTPUT_DIR w -> locked e = false) ->
   sort_newest_first (glob_output_files w1) = take (MAX_OUTPUT_FILES w) sorted).
Proof.
  intros Hnd sorted w1.
  assert (Hperm : sorted ≡ₚ glob_output_files w)
    by apply sort_newest_first_perm.
  assert (Hin : ∀ p, p ∈ sorted -> p.1 ∈ OUTPUT_DIR w).
  { intros p Hp. apply glob_output_files_elem. by rewrite <- Hperm. }
  destruct (le_lt_dec (length (glob_output_files w)) (MAX_OUTPUT_FILES w))
    as [Hle|Hlt].
  { assert (E : w1 = w)
      by (unfold w1; by rewrite (cleanup_old_files_within_limit w Hle)).
    rewrite E. split; [|split; [|split]]; auto.
    - intros p Hp. by apply Hin, (subseteq_take (MAX_OUTPUT_FILES w)).
    - intros _. fold sorted. symmetry. apply take_ge.
      unfold sorted. by rewrite sort_newest_first_length. }
  pose proof (cleanup_old_files_leaves w Hnd Hlt) as Hleaves.
  cbv zeta in Hleaves. fold w1 sorted in Hleaves.
  destruct Hleaves as [Hdir Hsorted].
  set (doomed := drop (MAX_OUTPUT_FILES w) sorted) in *.
  assert (Hsplit : sorted = take (MAX_OUTPUT_FILES w) sorted ++ doomed)
    by (symmetry; apply take_drop).
  assert (Hnames : NoDup ((fun p => fname p.1) <$> sorted)).
  { rewrite Hperm. by apply glob_output_files_NoDup. }
  assert (Hdoomed : ∀ name, name ∈ removable_names doomed ->
            ∃ q, q ∈ doomed ∧ q ∈ sorted ∧ fname q.1 = name).
  { intros name Hrm. unfold removable_names in Hrm.
    apply list_elem_of_fmap in Hrm as (q & -> & Hq).
    apply list_elem_of_filter in Hq as [_ Hq].
    exists q. split; [exact Hq|]. split; [|reflexivity].
    rewrite Hsplit. apply elem_of_app. by right. }
  split; [|split; [|split]].
  - intros p Hp. rewrite Hdir. apply list_elem_of_filter. split.
    + intros Hrm. apply Hdoomed in Hrm as (q & Hq & _ & Hn).
      rewrite Hsplit, fmap_app in Hnames.
      apply NoDup_app in Hnames as (_ & Hdisj & _).
      apply (Hdisj (fname p.1)).
      * by apply (list_elem_of_fmap_2 (fun p => fname p.1)).
      * rewrite <- Hn. by apply (list_elem_of_fmap_2 (fun p => fname p.1)).
    + by apply Hin, (subseteq_take (MAX_OUTPUT_FILES w)).
  - intros e He Hfile. rewrite Hdir. apply list_elem_of_filter.
    split; [|exact He]. intros Hrm.
    apply Hdoomed in Hrm as (q & _ & Hq & Hn).
    assert (Hqf : is_file q.1 = true).
    { apply (glob_output_files_is_file w). by rewrite <- Hperm. }
    assert (q.1 = e)
      by (apply (fmap_NoDup_inj fname (OUTPUT_DIR w)); auto).
    congruence.
  - intros e He. rewrite Hdir in He.
    by apply list_elem_of_filter in He as [_ He].
  - intros Hfree. by apply cleanup_old_files_unlocked.
Qed.

Lemma cleanup_old_files_keeps_newest_witness :
  fname <$> OUTPUT_DIR (cleanup_old_files world_over_limit).2 =
    ["merged_C.mp4"; "merged_D.mp4"] ∧
  (λ p, fname p.1) <$>
    sort_newest_first (glob_output_files (cleanup_old_files world_over_limit).2) =
    ["merged_D.mp4"; "merged_C.mp4"].
Proof.
  assert (Hnd : distinct_outputs world_over_limit)
    by (apply (bool_decide_unpack _); vm_compute; exact I).
  split; [vm_compute; reflexivity|].
  rewrite (proj2 (proj2 (proj2
    (cleanup_old_files_keeps_newest world_over_limit Hnd)))).
  - vm_compute. reflexivity.
  - apply Forall_forall. apply (bool_decide_unpack _). vm_compute. exact I.
Defined.

(** *** The pass as a loop over the files it dooms *)

Lemma cleanup_old_files_loop (w : world) :
  cleanup_old_files w =
    for_each (doomed_files w) (fun '(file_path, _) =>
      try_except (delete_old_file file_path) (fun _ => ret tt)) w.
Proof.
  unfold cleanup_old_files, try_except, bind, gets, doomed_files; simpl.
  destruct (_ <? _)%nat; [|reflexivity].
  pose proof (delete_loop
    (drop (MAX_OUTPUT_FILES w) (sort_newest_first (glob_output_files w))) w)
    as (Hr & _).
  destruct (for_each _ _ w) as [r w1]. simpl in Hr. by subst r.
Qed.

Lemma doomed_files_sublist (w : world) :
  doomed_files w `sublist_of` sort_newest_first (glob_output_files w).
Proof.
  unfold doomed_files. destruct (_ <? _)%nat; [apply sublist_drop|].
  apply sublist_nil_l.
Qed.

Lemma doomed_files_elem (w : world) (p : file_entry * Z) :
  p ∈ doomed_files w -> p.1 ∈ OUTPUT_DIR w.
Proof.
  intros Hp. apply glob_output_files_elem.
  rewrite <- (sort_newest_first_perm (glob_output_files w)).
  by apply (sublist_subseteq _ _ (doomed_files_sublist w)).
Qed.

Lemma doomed_files_NoDup (w : world) :
  distinct_outputs w -> NoDup ((fun p => fname p.1) <$> doomed_files w).
Proof.
  intros Hnd. eapply sublist_NoDup; [|apply fmap_sublist, doomed_files_sublist].
  rewrite sort_newest_first_perm. by apply glob_output_files_NoDup.
Qed.

Lemma for_each_app {A} (l1 l2 : list A) (body : A -> M unit) (w : world) :
  (for_each l1 body w).1 = Return tt ->
  for_each (l1 ++ l2) body w = for_each l2 body (for_each l1 body w).2.
Proof.
  revert w. induction l1 as [|x l1 IH]; intros w; [reflexivity|].
  simpl. unfold bind. destruct (body x w) as [[[]|e] w1]; [apply IH|].
  discriminate.
Qed.

Lemma keeps_for_each_elem (R : relation world) `{!PreOrder R} {A}
    (l : list A) (body : A -> M unit) :
  (∀ x, x ∈ l -> keeps R (body x)) -> keeps R (for_each l body).
Proof.
  induction l as [|x l IH]; intros Hb; simpl.
  - by apply keeps_ret.
  - apply keeps_bind; [apply _|apply Hb; left|].
    intros _. apply IH. intros y Hy. apply Hb. by right.
Qed.

(** *** Records that stay *)

#[local] Instance same_record_preorder task_id : PreOrder (same_record task_id).
Proof.
  split; unfold same_record; [by intros w|].
  intros w1 w2 w3 [H1 H2] [H3 H4]. split; congruence.
Qed.

Lemma delete_old_file_same_record (task_id : string) (f : file_entry) :
  split1_snd "_" (stem (fname f)) ≠ Some task_id ->
  keeps (same_record task_id)
    (try_except (delete_old_file f) (fun _ => ret tt)).
Proof.
  intros Hne. apply keeps_delete_old_file; [apply _| |].
  - by intros name w.
  - intros gone w Hgone _.
    assert (gone ≠ task_id) by congruence.
    destruct (bool_decide _); split; simpl;
      by rewrite ?lookup_delete_ne.
Qed.

Lemma cleanup_old_files_same_record (task_id : string) (w : world) :
  (∀ e, e ∈ OUTPUT_DIR w -> split1_snd "_" (stem (fname e)) ≠ Some task_id) ->
  same_record task_id w (cleanup_old_files w).2.
Proof.
  intros H. rewrite cleanup_old_files_loop.
  apply keeps_for_each_elem; [apply _|]. intros [f t] Hf.
  apply delete_old_file_same_record. apply H.
  by apply (doomed_files_elem w (f, t)).
Qed.

Lemma prefixed_differs (p s : string) : p ≠ "" -> p +:+ s ≠ s.
Proof.
  intros Hp E. apply (f_equal String.length) in E.
  rewrite length_app_string in E.
  destruct p; [done|]. simpl in E. lia.
Qed.

(** X11: the record of a replace-audio task outlives its artifact: unless
    some other file of the output directory names the task, a retention
    pass leaves the task's record as it was, in the durable store and in the
    cache, whether or not it deletes [replaced_audio_<task_id>.mp4]. *)
Theorem replaced_audio_record_outlives_artifact (task_id : string) (w : world) :
  (∀ e, e ∈ OUTPUT_DIR w ->
        fname e ≠ "replaced_audio_" +:+ task_id +:+ ".mp4" ->
        split1_snd "_" (stem (fname e)) ≠ Some task_id) ->
  TASKS_DIR (cleanup_old_files w).2 !! task_id = TASKS_DIR w !! task_id ∧
  tasks (cleanup_old_files w).2 !! task_id = tasks w !! task_id.
Proof.
  intros H. apply cleanup_old_files_same_record. intros e He.
  destruct (decide (fname e = "replaced_audio_" +:+ task_id +:+ ".mp4"))
    as [E|Hne]; [|by apply H].
  rewrite E. destruct (replaced_audio_name_task_id task_id) as [_ Hs].
  cbv zeta in Hs. rewrite Hs. intros [=Hbad].
  by apply (prefixed_differs "audio_" task_id).
Qed.

Lemma replaced_audio_record_outlives_artifact_witness :
  ("replaced_audio_A.mp4" ∉
     fname <$> OUTPUT_DIR ((cleanup_old_files world_over_limit).2)) ∧
  TASKS_DIR (cleanup_old_files world_over_limit).2 !! "A" =
    Some (finished_task "A" "replace_audio" "replaced_audio_A.mp4").
Proof.
  assert (H : Forall (fun e =>
            fname e ≠ "replaced_audio_" +:+ "A" +:+ ".mp4" ->
            split1_snd "_" (stem (fname e)) ≠ Some "A")
          (OUTPUT_DIR world_over_limit))
    by (apply (bool_decide_unpack _); vm_compute; exact I).
  split; [apply (bool_decide_unpack _); vm_compute; exact I|].
  rewrite (proj1 (replaced_audio_record_outlives_artifact "A" world_over_limit
    (proj1 (Forall_forall _ _) H))).
  vm_compute. reflexivity.
Defined.

(** *** Records that go *)

Lemma delete_old_file_coherent (f : file_entry) :
  keeps (preserved cache_coherent)
    (try_except (delete_old_file f) (fun _ => ret tt)).
Proof.
  apply keeps_delete_old_file; [apply _| |].
  - intros name w. exact (fun H => H).
  - intros task_id w _ _ H. case_bool_decide as Hc; intros id' d'; simpl.
    + destruct (decide (task_id = id')) as [->|Hne].
      * by rewrite lookup_delete_eq.
      * rewrite !lookup_delete_ne by done. apply H.
    + destruct (decide (task_id = id')) as [->|Hne].
      * intros Hd. exfalso. apply Hc. by eexists.
      * rewrite lookup_delete_ne by done. apply H.
Qed.

#[local] Instance stays_gone_preorder task_id : PreOrder (stays_gone task_id).
Proof. split; unfold stays_gone; [intros w|intros w1 w2 w3]; auto. Qed.

Lemma delete_old_file_stays_gone (task_id : string) (f : file_entry) :
  keeps (stays_gone task_id)
    (try_except (delete_old_file f) (fun _ => ret tt)).
Proof.
  apply keeps_delete_old_file; [apply _| |].
  - intros name w H. exact H.
  - intros gone w _ _ [H1 H2].
    destruct (bool_decide _); simpl; split; try done;
      apply lookup_delete_None; auto.
Qed.

(** The iteration that deletes [merged_<task_id>.mp4]. *)
Lemma delete_old_file_merged (task_id : string) (f : file_entry) (w : world) :
  fname f = "merged_" +:+ task_id +:+ ".mp4" ->
  (∃ e, e ∈ OUTPUT_DIR w ∧ fname e = fname f) ->
  (∀ e, e ∈ OUTPUT_DIR w -> fname e = fname f -> locked e = false) ->
  cache_coherent w ->
  let w' := (try_except (delete_old_file f) (fun _ => ret tt) w).2 in
  TASKS_DIR w' !! task_id = None ∧ tasks w' !! task_id = None.
Proof.
  intros Hname (e0 & He0 & Hn0) Hfree Hcoh.
  destruct (merged_name_task_id task_id) as [Hp Hs]. cbv zeta in Hp, Hs.
  unfold try_except, delete_old_file, bind, unlink_output, gets, modify, ret,
    raise.
  destruct (list_find _ (OUTPUT_DIR w)) as [[i e]|] eqn:E.
  2:{ apply list_find_None in E. rewrite Forall_forall in E.
      by destruct (E e0 He0). }
  apply list_find_Some in E as (Hi & Hn & _).
  rewrite (Hfree e (list_elem_of_lookup_2 _ _ _ Hi) Hn).
  rewrite Hname, Hp, Hs. cbn [fst snd TASKS_DIR set_OUTPUT_DIR].
  case_bool_decide as Hfile; cbn [fst snd tasks TASKS_DIR set_TASKS_DIR
    set_OUTPUT_DIR].
  - case_bool_decide as Hcached; cbn [snd tasks TASKS_DIR set_tasks
      set_TASKS_DIR set_OUTPUT_DIR].
    + by rewrite !lookup_delete_eq.
    + rewrite lookup_delete_eq. split; [reflexivity|].
      destruct (tasks w !! task_id) eqn:Ec; [|reflexivity].
      exfalso. apply Hcached. by eexists.
  - assert (Hnone : TASKS_DIR w !! task_id = None).
    { destruct (TASKS_DIR w !! task_id) eqn:Ef; [|reflexivity].
      exfalso. apply Hfile. by eexists. }
    split; [exact Hnone|].
    destruct (tasks w !! task_id) as [d|] eqn:Ec; [|reflexivity].
    apply Hcoh in Ec. congruence.
Qed.

Lemma cleanup_old_files_evicts_merged (task_id : string) (w : world) :
  distinct_outputs w -> cache_coherent w ->
  let name := "merged_" +:+ task_id +:+ ".mp4" in
  name ∈ fname <$> OUTPUT_DIR w ->
  name ∉ fname <$> OUTPUT_DIR (cleanup_old_files w).2 ->
  TASKS_DIR (cleanup_old_files w).2 !! task_id = None ∧
  tasks (cleanup_old_files w).2 !! task_id = None.
Proof.
  intros Hnd Hcoh name Hin Hout.
  set (body := fun '((file_path, _) : file_entry * Z) =>
    try_except (delete_old_file file_path) (fun _ => ret tt)).
  assert (Hloop : cleanup_old_files w = for_each (doomed_files w) body w)
    by apply cleanup_old_files_loop.
  rewrite Hloop in *. clear Hloop.
  assert (Hlocked : ∀ l, l ⊆ doomed_files w ->
    ∀ p e, p ∈ l -> e ∈ OUTPUT_DIR w -> fname e = fname p.1 ->
           locked e = locked p.1).
  { intros l Hl p e Hp He Hn. f_equal.
    apply (fmap_NoDup_inj fname (OUTPUT_DIR w)); auto.
    by apply doomed_files_elem, Hl. }
  assert (Hq : ∃ q, q ∈ doomed_files w ∧ locked q.1 = false ∧ fname q.1 = name).
  { destruct (delete_loop (doomed_files w) w) as (_ & Hdir & _).
    fold body in Hdir. rewrite Hdir in Hout.
    rewrite (foldl_unlink_result _ _ (Hlocked _ (reflexivity _))) in Hout.
    apply list_elem_of_fmap in Hin as (e & He & Hin).
    destruct (decide (name ∈ removable_names (doomed_files w))) as [Hrm|Hrm].
    - unfold removable_names in Hrm.
      apply list_elem_of_fmap in Hrm as (q & Hq & Hqd).
      apply list_elem_of_filter in Hqd as [Hl Hqd]. by exists q.
    - exfalso. apply Hout. rewrite He. apply list_elem_of_fmap_2.
      apply list_elem_of_filter. by rewrite <- He. }
  destruct Hq as (q & Hq & Hfree & Hname).
  apply list_elem_of_split in Hq as (l1 & l2 & Hsplit).
  pose proof (doomed_files_NoDup w Hnd) as Hnames.
  rewrite Hsplit, fmap_app, fmap_cons in Hnames.
  apply NoDup_app in Hnames as (_ & Hdisj & _).
  destruct (delete_loop l1 w) as (Hr1 & Hdir1 & _). fold body in Hr1, Hdir1.
  rewrite Hsplit, (for_each_app l1 (q :: l2) body w Hr1).
  set (wa := (for_each l1 body w).2) in *.
  assert (Hl1 : l1 ⊆ doomed_files w).
  { rewrite Hsplit. intros p Hp. apply elem_of_app. by left. }
  rewrite (foldl_unlink_result _ _ (Hlocked _ Hl1)) in Hdir1.
  assert (Hqin : q.1 ∈ OUTPUT_DIR w).
  { apply doomed_files_elem. rewrite Hsplit. apply elem_of_app. right. left. }
  assert (Hcoha : cache_coherent wa).
  { apply (keeps_for_each (preserved cache_coherent) l1 body); [|exact Hcoh].
    intros [f t]. apply delete_old_file_coherent. }
  assert (Hgone : let wb := (body q wa).2 in
            TASKS_DIR wb !! task_id = None ∧ tasks wb !! task_id = None).
  { destruct q as [f t]. simpl in *.
    apply delete_old_file_merged; [exact Hname| | |exact Hcoha].
    - exists f. split; [|reflexivity]. rewrite Hdir1.
      apply list_elem_of_filter. split; [|exact Hqin].
      intros Hrm. unfold removable_names in Hrm.
      apply list_elem_of_fmap in Hrm as (p & Hp & Hpd).
      apply list_elem_of_filter in Hpd as [_ Hpd].
      apply (Hdisj (fname f)); [|left].
      rewrite Hp. by apply (list_elem_of_fmap_2 (fun p => fname p.1)).
    - intros e He Hn. rewrite Hdir1 in He.
      apply list_elem_of_filter in He as [_ He].
      by rewrite (fmap_NoDup_inj fname (OUTPUT_DIR w) e f Hnd He Hqin Hn). }
  cbv zeta in Hgone. simpl. unfold bind.
  destruct (delete_old_file_guarded q.1 wa) as (Hrq & _).
  assert (Hbq : body q wa =
    try_except (delete_old_file q.1) (fun _ => ret tt) wa) by by destruct q.
  rewrite <- Hbq in Hrq.
  destruct (body q wa) as [r wb]. simpl in Hrq, Hgone. subst r.
  apply (keeps_for_each (stays_gone task_id) l2 body); [|exact Hgone].
  intros [f t]. apply delete_old_file_stays_gone.
Qed.

(** X12: when a retention pass deletes the artifact [merged_<task_id>.mp4]
    (of a merge or loop task), the record of the task goes with it, from
    the durable store and from the cache: from then on the status route and
    the download route answer 404 for the task. *)
Theorem evicted_merged_artifact_takes_record (task_id : string) (w : world) :
  distinct_outputs w -> cache_coherent w ->
  let name := "merged_" +:+ task_id +:+ ".mp4" in
  let w1 := (cleanup_old_files w).2 in
  name ∈ fname <$> OUTPUT_DIR w ->
  name ∉ fname <$> OUTPUT_DIR w1 ->
  TASKS_DIR w1 !! task_id = None ∧ tasks w1 !! task_id = None ∧
  get_task_status task_id w1 =
    (Raise (HTTPException 404 "Task not found"), w1) ∧
  download_task_result task_id w1 =
    (Raise (HTTPException 404 "Task not found"), w1).
Proof.
  intros Hnd Hcoh name w1 Hin Hout.
  destruct (cleanup_old_files_evicts_merged task_id w Hnd Hcoh Hin Hout)
    as [H1 H2].
  fold w1 in H1, H2. split; [exact H1|]. split; [exact H2|].
  unfold get_task_status, download_task_result, bind, get_task.
  by rewrite H1, H2.
Qed.

Lemma evicted_merged_artifact_takes_record_witness :
  "merged_B.mp4" ∈ fname <$> OUTPUT_DIR world_over_limit ∧
  is_Some (TASKS_DIR world_over_limit !! "B") ∧
  TASKS_DIR (cleanup_old_files world_over_limit).2 !! "B" = None ∧
  (get_task_status "B" (cleanup_old_files world_over_limit).2).1 =
    Raise (HTTPException 404 "Task not found").
Proof.
  assert (Hin : "merged_B.mp4" ∈ fname <$> OUTPUT_DIR world_over_limit)
    by (apply (bool_decide_unpack _); vm_compute; exact I).
  split; [exact Hin|]. split; [by eexists|].
  assert (H : let w1 := (cleanup_old_files world_over_limit).2 in
    TASKS_DIR w1 !! "B" = None ∧ tasks w1 !! "B" = None ∧
    get_task_status "B" w1 = (Raise (HTTPException 404 "Task not found"), w1) ∧
    download_task_result "B" w1 =
      (Raise (HTTPException 404 "Task not found"), w1));
    [|cbv zeta in H; destruct H as (H1 & _ & H2 & _);
      split; [exact H1|by rewrite H2]].
  apply (evicted_merged_artifact_takes_record "B" world_over_limit).
  - apply (bool_decide_unpack _). vm_compute. exact I.
  - intros id d H. exact H.
  - exact Hin.
  - apply (bool_decide_unpack _). vm_compute. exact I.
Defined.

(** ** Routes: requests that are turned down *)

Lemma no_task_created_refl (w : world) : no_task_created w w.
Proof. by repeat split. Qed.

Lemma create_task_rejected task_id type fn vp ap vf af video_file audio_file
    m1 m2 w e :
  (create_task task_id type fn vp ap vf af video_file audio_file m1 m2 w).1 =
    Raise e ->
  (∃ detail, e = HTTPException 500 detail) ∧
  no_task_created w
    (create_task task_id type fn vp ap vf af video_file audio_file m1 m2 w).2.
Proof.
  cbv beta iota zeta delta [create_task try_except bind save_upload modify ret
    raise now save_task abort_task_creation unlink_temp_if_exists gets].
  destruct (readable video_file), (readable audio_file);
    repeat (case_bool_decide; cbn [fst snd]); try discriminate;
    intros [= <-]; (split; [by eexists|]);
    unfold no_task_created; cbn; repeat split; try reflexivity; set_solver.
Qed.

(** [POST /merge] always gets as far as creating the task: the extension
    checks that follow its renaming of the uploads cannot fail. *)
Lemma stem_nonempty (n : string) : n ≠ "" -> stem n ≠ "".
Proof.
  intros Hn. unfold stem, has_suffix_at.
  destruct (rfind "." n) as [i|]; [|exact Hn].
  destruct (Nat.ltb_spec 0 i) as [Hi|]; [|exact Hn].
  destruct (_ <? _)%nat; [|exact Hn]. simpl.
  destruct i as [|i]; [lia|]. destruct n; [done|]. discriminate.
Qed.

Lemma suffix_mp3 (s : string) : s ≠ "" -> lower (suffix (s +:+ ".mp3")) = ".mp3".
Proof.
  intros Hs.
  destruct (split_extension s ".mp3" Hs) as [_ ->]; [reflexivity|simpl; lia|].
  reflexivity.
Qed.

Lemma merge_video_audio_creates task_id video_file audio_file w :
  ∃ vp ap vf af,
    merge_video_audio task_id video_file audio_file w =
      create_task task_id "merge" process_merge_video_audio_fn vp ap vf af
        video_file audio_file
        "Task created, waiting to start processing"
        "Task created successfully. Use /task/{task_id}/status to check progress."
        w.
Proof.
  unfold merge_video_audio. cbv zeta.
  match goal with
  | |- context [if negb (is_in (?v.1) video_extensions)
                then raise unsupported_video else _] => set (video := v)
  end.
  match goal with
  | |- context [if negb (is_in (lower (suffix ?a)) audio_extensions)
                then raise unsupported_audio else _] => set (audio_filename := a)
  end.
  assert (Hv : is_in video.1 video_extensions = true).
  { subst video. destruct (filename video_file) as [n|]; [|reflexivity].
    destruct (negb _ && has_dot n); [|reflexivity].
    destruct (is_in (lower (suffix n)) video_extensions) eqn:E;
      [exact E|reflexivity]. }
  assert (Ha : is_in (lower (suffix audio_filename)) audio_extensions = true).
  { subst audio_filename. destruct (filename audio_file) as [n|]; [|reflexivity].
    case_bool_decide as Hn; [subst n; reflexivity|]. cbn [negb andb].
    destruct (has_dot n); [|by rewrite suffix_mp3].
    destruct (is_in (lower (suffix n)) audio_extensions) eqn:E;
      cbn [negb]; [exact E|].
    by rewrite suffix_mp3 by by apply stem_nonempty. }
  rewrite Hv, Ha. cbn [negb]. by do 4 eexists.
Qed.

(** X13: a request that one of the three task routes answers with an error
    leaves nothing of a task behind: no record in either store, no journal
    entry, no job in the queue, and no temporary file that was not there
    before.  (Unlinking a temporary file is taken never to fail.) *)
Theorem rejected_request_leaves_no_task (p : policy) (task_id : string)
    (video_file audio_file : UploadFile) (w : world) (e : exn) :
  (route p task_id video_file audio_file w).1 = Raise e ->
  let w' := (route p task_id video_file audio_file w).2 in
  tasks w' = tasks w ∧ TASKS_DIR w' = TASKS_DIR w ∧ journal w' = journal w ∧
  background_tasks w' = background_tasks w ∧ OUTPUT_DIR w' = OUTPUT_DIR w ∧
  clock w' = clock w ∧ TEMP_DIR w' ⊆ TEMP_DIR w.
Proof.
  destruct p; unfold route.
  - destruct (merge_video_audio_creates task_id video_file audio_file w)
      as (vp & ap & vf & af & ->).
    intros H. by apply create_task_rejected in H as [_ H].
  - unfold merge_replace_audio, suffix_lower, bind, raise, ret.
    destruct (filename video_file) as [vn|]; [|intros _; apply no_task_created_refl].
    destruct (filename audio_file) as [an|]; [|intros _; apply no_task_created_refl].
    cbv beta iota.
    destruct (negb _); [intros _; apply no_task_created_refl|].
    destruct (negb _); [intros _; apply no_task_created_refl|].
    intros H. by apply create_task_rejected in H as [_ H].
  - unfold loop_video_to_audio, suffix_lower, bind, raise, ret.
    destruct (filename video_file) as [vn|]; [|intros _; apply no_task_created_refl].
    destruct (filename audio_file) as [an|]; [|intros _; apply no_task_created_refl].
    cbv beta iota.
    destruct (negb _); [intros _; apply no_task_created_refl|].
    destruct (negb _); [intros _; apply no_task_created_refl|].
    intros H. by apply create_task_rejected in H as [_ H].
Qed.

Lemma rejected_request_leaves_no_task_witness :
  let broken := {| filename := Some "song.mp3"; readable := false |} in
  (route replace "T" mp4 broken world0).1 =
    Raise (HTTPException 500 "Error creating task: error reading upload") ∧
  tasks (route replace "T" mp4 broken world0).2 = ∅ ∧
  TEMP_DIR (route replace "T" mp4 broken world0).2 ⊆ ∅.
Proof.
  intros broken.
  assert (H : (route replace "T" mp4 broken world0).1 =
    Raise (HTTPException 500 "Error creating task: error reading upload"))
    by (vm_compute; reflexivity).
  split; [exact H|].
  destruct (rejected_request_leaves_no_task replace "T" mp4 broken world0 _ H)
    as (H1 & _ & _ & _ & _ & _ & H2).
  split; [exact H1|exact H2].
Defined.

(** X14: [POST /merge] turns no upload down for its name.  Whatever the two
    file names are (plain names: no slash, not the single dot), the route
    never answers 400; when both uploads can be stored it answers with a
    pending task of type [merge] and queues a merge job. *)
Theorem merge_route_never_rejects_a_name (task_id : string)
    (video_file audio_file : UploadFile) (w : world) :
  (∀ n, filename video_file = Some n -> n ≠ "." ∧ rfind "/" n = None) ->
  (∀ n, filename audio_file = Some n -> n ≠ "." ∧ rfind "/" n = None) ->
  let r := merge_video_audio task_id video_file audio_file w in
  (∀ detail, r.1 ≠ Raise (HTTPException 400 detail)) ∧
  (readable video_file = true -> readable audio_file = true ->
   ∃ resp d0 vp ap,
     r.1 = Return resp ∧
     created task_id "merge"
       {| job_fn := process_merge_video_audio_fn; job_task_id := task_id;
          job_video_path := vp; job_audio_path := ap |} d0 w r.2).
Proof.
  intros _ _.
  destruct (merge_video_audio_creates task_id video_file audio_file w)
    as (vp & ap & vf & af & ->).
  cbv zeta. split.
  - intros detail H. apply create_task_rejected in H as [[d [=]] _].
  - intros Hv Ha.
    destruct (create_task_readable task_id "merge"
                process_merge_video_audio_fn vp ap vf af video_file audio_file
                "Task created, waiting to start processing"
                "Task created successfully. Use /task/{task_id}/status to check progress."
                w Hv Ha) as (resp & w' & d0 & -> & Hc).
    by exists resp, d0, vp, ap.
Qed.

Lemma merge_route_never_rejects_a_name_witness :
  let video := {| filename := Some "holiday"; readable := true |} in
  let audio := {| filename := Some "track.xyz"; readable := true |} in
  (merge_replace_audio "T" video audio world0).1 = Raise unsupported_video ∧
  ∃ resp, (merge_video_audio "T" video audio world0).1 = Return resp.
Proof.
  intros video audio. split; [vm_compute; reflexivity|].
  destruct (merge_route_never_rejects_a_name "T" video audio world0)
    as [_ H].
  - intros n [= <-]. split; [discriminate|reflexivity].
  - intros n [= <-]. split; [discriminate|reflexivity].
  - destruct H as (resp & _ & _ & _ & H & _); [reflexivity|reflexivity|].
    by exists resp.
Defined.

(** X15: a task that a route has just accepted can be polled at once: its
    status is [pending] and its type is the route's, and a download request
    is answered with that status, not with a file. *)
Theorem accepted_task_is_pending (p : policy) (task_id : string)
    (video_file audio_file : UploadFile) (w w' : world) (resp : response) :
  route p task_id video_file audio_file w = (Return resp, w') ->
  ∃ v pr,
    get_task_status task_id w' = (Return v, w') ∧
    view_task_id v = task_id ∧ view_status v = PENDING ∧
    view_type v = task_type p ∧
    download_task_result task_id w' = (Return (StatusResponse pr), w') ∧
    prog_task_id pr = task_id ∧ prog_status pr = PENDING.
Proof.
  intros H. apply route_accepted in H as (vp & ap & d0 & Hc).
  destruct Hc as (Hd & Hs & Ht & _).
  unfold get_task_status, download_task_result, bind, get_task, ret.
  rewrite Hd, Hs. cbn. do 2 eexists.
  split; [reflexivity|]. split; [reflexivity|]. split; [reflexivity|].
  split; [exact Ht|]. by repeat split.
Qed.

Lemma accepted_task_is_pending_witness :
  ∃ v, get_task_status "T" world_L = (Return v, world_L) ∧
       view_status v = PENDING ∧ view_type v = "loop_video".
Proof.
  destruct (accepted_task_is_pending loop_exact "T" mp4 mp3 world0 world_L
    {| resp_task_id := "T"; resp_status := PENDING;
       resp_message :=
         "Video looping task created successfully. The video will be looped to match audio duration.";
       resp_created_at := 0 |})
    as (v & pr & H1 & _ & H2 & H3 & _).
  - vm_compute. reflexivity.
  - exists v. by repeat split.
Defined.

(** ** Administration: the limit and the manual pass *)

Lemma cleanup_old_files_enforces_limit (w : world) :
  distinct_outputs w -> (∀ e, e ∈ OUTPUT_DIR w -> locked e = false) ->
  (length (glob_output_files (cleanup_old_files w).2) <= MAX_OUTPUT_FILES w)%nat.
Proof.
  intros Hnd Hfree.
  rewrite <- sort_newest_first_length,
    (cleanup_old_files_unlocked w Hnd Hfree), length_take. lia.
Qed.

Lemma glob_output_files_length (w : world) :
  (length (glob_output_files w) <= length (OUTPUT_DIR w))%nat.
Proof.
  unfold glob_output_files. rewrite length_fmap. apply length_filter.
Qed.

Lemma unlink_result_length (name : string) (dir : list file_entry) :
  (length (unlink_result name dir) <= length dir)%nat.
Proof.
  unfold unlink_result. destruct (list_find _ dir) as [[i e]|]; [|lia].
  destruct (locked e); [lia|apply length_filter].
Qed.

Lemma cleanup_old_files_shrinks (w : world) :
  (length (OUTPUT_DIR (cleanup_old_files w).2) <= length (OUTPUT_DIR w))%nat.
Proof.
  pose proof (cleanup_old_files_spec w) as Hspec. cbv zeta in Hspec.
  destruct Hspec as (_ & -> & _).
  generalize (OUTPUT_DIR w).
  generalize (if (MAX_OUTPUT_FILES w <?
                  length (sort_newest_first (glob_output_files w)))%nat
              then drop (MAX_OUTPUT_FILES w)
                     (sort_newest_first (glob_output_files w))
              else []).
  intros doomed. induction doomed as [|p doomed IH]; intros dir; simpl; [lia|].
  etransitivity; [apply IH|apply unlink_result_length].
Qed.

(** X16: [POST /config/max-files] turns a value outside 1..100 down with a
    400 and changes nothing.  A value within is stored as the new limit, the
    answer names the old and the new limit and the number of entries left;
    and when the names of the output directory are distinct and no file is
    locked, at most that many files are left afterwards. *)
Theorem update_max_files_enforces_limit (max_files : Z) (w : world) :
  let r := update_max_files max_files w in
  ((max_files < 1 ∨ 100 < max_files)%Z ->
     ∃ detail, r = (Raise (HTTPException 400 detail), w)) ∧
  ((1 <= max_files <= 100)%Z ->
     ∃ rep, r.1 = Return rep ∧
       lim_old_limit rep = MAX_OUTPUT_FILES w ∧
       lim_new_limit rep = Z.to_nat max_files ∧
       MAX_OUTPUT_FILES r.2 = Z.to_nat max_files ∧
       lim_current_files rep = length (OUTPUT_DIR r.2) ∧
       (distinct_outputs w -> (∀ e, e ∈ OUTPUT_DIR w -> locked e = false) ->
        (length (glob_output_files r.2) <= Z.to_nat max_files)%nat)).
Proof.
  cbv zeta. split; [apply update_max_files_rejects|].
  intros Hin. rewrite (update_max_files_accepts max_files w Hin).
  eexists. split; [reflexivity|]. cbn [fst snd lim_old_limit lim_new_limit
    lim_current_files].
  set (w1 := set_MAX_OUTPUT_FILES (fun _ => Z.to_nat max_files) w).
  destruct (Nat.ltb_spec (Z.to_nat max_files) (length (OUTPUT_DIR w)))
    as [Hlt|Hge].
  - pose proof (cleanup_old_files_spec w1) as Hspec. cbv zeta in Hspec.
    destruct Hspec as (_ & _ & Hf). destruct Hf as (_ & Hmax & _).
    split; [reflexivity|]. split; [reflexivity|].
    split; [exact Hmax|]. split; [reflexivity|].
    intros Hnd Hfree.
    exact (cleanup_old_files_enforces_limit w1 Hnd Hfree).
  - split; [reflexivity|]. split; [reflexivity|]. split; [reflexivity|].
    split; [reflexivity|]. intros _ _.
    etransitivity; [apply (glob_output_files_length w)|exact Hge].
Qed.

Lemma update_max_files_enforces_limit_witness :
  (∃ detail, update_max_files 0 world_over_limit =
     (Raise (HTTPException 400 detail), world_over_limit)) ∧
  (length (glob_output_files (update_max_files 1 world_over_limit).2) <= 1)%nat.
Proof.
  destruct (update_max_files_enforces_limit 0 world_over_limit) as [H0 _].
  destruct (update_max_files_enforces_limit 1 world_over_limit) as [_ H1].
  split; [apply H0; lia|].
  destruct H1 as (rep & _ & _ & _ & _ & _ & H1); [lia|].
  apply H1.
  - apply (bool_decide_unpack _). vm_compute. exact I.
  - apply Forall_forall. apply (bool_decide_unpack _). vm_compute. exact I.
Defined.

(** X17: [POST /cleanup] never fails: it runs one retention pass and reports
    the number of directory entries before and after, their difference,
    which is never negative, and the limit in force; besides the pass, only
    the clock has moved. *)
Theorem manual_cleanup_reports_deletions (w : world) :
  let w1 := (cleanup_old_files w).2 in
  ∃ rep, manual_cleanup w = (Return rep, set_clock Z.succ w1) ∧
    rep_files_before rep = length (OUTPUT_DIR w) ∧
    rep_files_after rep = length (OUTPUT_DIR w1) ∧
    (rep_files_after rep <= rep_files_before rep)%nat ∧
    (Z.of_nat (rep_files_after rep) + rep_files_deleted rep =
      Z.of_nat (rep_files_before rep))%Z ∧
    (0 <= rep_files_deleted rep)%Z ∧
    rep_max_files_limit rep = MAX_OUTPUT_FILES w.
Proof.
  cbv zeta. pose proof (cleanup_old_files_shrinks w) as Hle.
  pose proof (cleanup_old_files_spec w) as Hspec. cbv zeta in Hspec.
  destruct Hspec as (Hr & _ & Hf). destruct Hf as (_ & Hmax & _).
  cbv beta iota zeta delta [manual_cleanup try_except bind gets
    count_output_entries ret now raise].
  destruct (cleanup_old_files w) as [r w1]. cbn [fst snd] in *. subst r.
  cbn [fst snd]. eexists. split; [reflexivity|].
  cbn [rep_files_before rep_files_after rep_files_deleted rep_max_files_limit].
  repeat split; lia.
Qed.

(** ** Listing and download *)

Lemma insert_latest_first_perm x l : insert_latest_first x l ≡ₚ x :: l.
Proof.
  induction l as [|y l IH]; simpl; [reflexivity|].
  destruct (_ <? _)%Z; [|reflexivity].
  rewrite IH. apply Permutation_swap.
Qed.

Lemma sort_latest_first_perm l : sort_latest_first l ≡ₚ l.
Proof.
  induction l as [|x l IH]; simpl; [reflexivity|].
  by rewrite insert_latest_first_perm, IH.
Qed.

Lemma insert_latest_first_sorted x l :
  latest_first l -> latest_first (insert_latest_first x l).
Proof.
  induction l as [|y l IH]; simpl; intros H.
  { split; [constructor|exact I]. }
  destruct H as [Hall Hs].
  destruct (Z.ltb_spec (sum_created_at x) (sum_created_at y)) as [Hlt|Hge];
    simpl.
  - split; [|by apply IH].
    rewrite insert_latest_first_perm. constructor; [lia|exact Hall].
  - split; [|by split].
    constructor; [exact Hge|].
    eapply Forall_impl; [exact Hall|]. simpl. intros z Hz. lia.
Qed.

Lemma sort_latest_first_sorted l : latest_first (sort_latest_first l).
Proof.
  induction l as [|x l IH]; simpl; [exact I|].
  by apply insert_latest_first_sorted.
Qed.

Lemma latest_first_app (l1 l2 : list task_summary) (a b : task_summary) :
  latest_first (l1 ++ l2) -> a ∈ l1 -> b ∈ l2 ->
  (sum_created_at b <= sum_created_at a)%Z.
Proof.
  induction l1 as [|x l1 IH]; intros Hs Ha Hb; [by apply elem_of_nil in Ha|].
  destruct Hs as [Hall Hs].
  apply elem_of_cons in Ha as [->|Ha]; [|by apply IH].
  rewrite Forall_forall in Hall. apply Hall, elem_of_app. by right.
Qed.

Lemma latest_first_lookup (l : list task_summary) (i j : nat)
    (a b : task_summary) :
  latest_first l -> (i < j)%nat -> l !! i = Some a -> l !! j = Some b ->
  (sum_created_at b <= sum_created_at a)%Z.
Proof.
  revert i j. induction l as [|x l IH]; intros i j Hs Hij Ha Hb; [done|].
  destruct Hs as [Hall Hs]. destruct j as [|j]; [lia|].
  destruct i as [|i]; simpl in *.
  - injection Ha as <-. rewrite Forall_forall in Hall.
    by apply Hall, list_elem_of_lookup_2 with j.
  - apply (IH i j); auto. lia.
Qed.

Lemma latest_first_take (n : nat) (l : list task_summary) :
  latest_first l -> latest_first (take n l).
Proof.
  revert n. induction l as [|x l IH]; intros [|n] Hs; simpl; auto.
  destruct Hs as [Hall Hs]. split; [|by apply IH].
  apply Forall_take, Hall.
Qed.

(** A slice [l[:limit]] is a prefix, whatever the sign of [limit]. *)
Lemma slice_to_take {A} (limit : Z) (l : list A) :
  ∃ n, slice_to limit l = take n l.
Proof. unfold slice_to. destruct (_ <=? _)%Z; by eexists. Qed.

Lemma map_to_list_filter {A} (P : string * A -> Prop)
    `{!∀ x, Decision (P x)} (m : gmap string A) :
  map_to_list (filter P m) ≡ₚ filter P (map_to_list m).
Proof.
  apply NoDup_Permutation.
  - apply NoDup_map_to_list.
  - apply NoDup_filter, NoDup_map_to_list.
  - intros [i x]. rewrite elem_of_map_to_list, list_elem_of_filter,
      elem_of_map_to_list, map_lookup_filter_Some. tauto.
Qed.

Lemma filter_snd {A B} (P : B -> Prop) `{!∀ x, Decision (P x)}
    (l : list (A * B)) :
  filter P (snd <$> l) = snd <$> filter (fun kv => P kv.2) l.
Proof.
  induction l as [|[k x] l IH]; [reflexivity|].
  rewrite fmap_cons, !filter_cons. simpl.
  destruct (decide (P x)); simpl; by rewrite IH.
Qed.

(** X18: [GET /tasks] changes nothing and never fails.  Its total is the
    number of task records in the durable store that match the status
    filter; what it lists are summaries of such records, latest created
    first, cut to [limit] (for a negative [limit], all but the last
    [-limit]); and no matching record that is left out was created after
    one that is listed. *)
Theorem list_tasks_lists_latest_stored (limit : Z) (status : option TaskStatus)
    (w : world) :
  ∃ l, list_tasks limit status w = (Return l, w) ∧
    listing_total l =
      size (filter (fun kv : string * task_data =>
                      status_matches status kv.2 = true) (TASKS_DIR w)) ∧
    length (listing_tasks l) =
      (if (0 <=? limit)%Z then Z.to_nat limit `min` listing_total l
       else listing_total l - Z.to_nat (- limit))%nat ∧
    (∀ s, s ∈ listing_tasks l ->
       ∃ task_id d, TASKS_DIR w !! task_id = Some d ∧
                    status_matches status d = true ∧ s = summary d) ∧
    (∀ i j a b, (i < j)%nat ->
       listing_tasks l !! i = Some a -> listing_tasks l !! j = Some b ->
       (sum_created_at b <= sum_created_at a)%Z) ∧
    (∀ task_id d s, TASKS_DIR w !! task_id = Some d ->
       status_matches status d = true ->
       summary d ∉ listing_tasks l -> s ∈ listing_tasks l ->
       (sum_created_at (summary d) <= sum_created_at s)%Z).
Proof.
  unfold list_tasks, bind, gets, ret. cbv zeta. eexists.
  split; [reflexivity|].
  cbn [listing_tasks listing_total fst snd].
  set (matching := filter (fun d => status_matches status d = true)
                     (snd <$> map_to_list (TASKS_DIR w))).
  set (all := sort_latest_first (summary <$> matching)).
  assert (Hperm : all ≡ₚ summary <$> matching)
    by apply sort_latest_first_perm.
  assert (Hsorted : latest_first all) by apply sort_latest_first_sorted.
  assert (Hmatching : ∀ d, d ∈ matching <->
            ∃ task_id, TASKS_DIR w !! task_id = Some d ∧
                       status_matches status d = true).
  { intros d. unfold matching. rewrite list_elem_of_filter, list_elem_of_fmap.
    split.
    - intros (Hm & [task_id d'] & -> & Hin).
      apply elem_of_map_to_list in Hin. by exists task_id.
    - intros (task_id & Hin & Hm). split; [exact Hm|].
      exists (task_id, d). split; [reflexivity|].
      by apply elem_of_map_to_list. }
  destruct (slice_to_take limit all) as [n Hn].
  split; [|split; [|split; [|split]]].
  - rewrite Hperm, length_fmap. unfold matching.
    rewrite filter_snd, length_fmap, <- map_to_list_filter.
    apply length_map_to_list.
  - unfold slice_to. destruct (_ <=? _)%Z; rewrite length_take; lia.
  - intros s Hs. rewrite Hn in Hs. apply subseteq_take in Hs.
    rewrite Hperm in Hs. apply list_elem_of_fmap in Hs as (d & -> & Hd).
    apply Hmatching in Hd as (task_id & Hd & Hm). by exists task_id, d.
  - rewrite Hn. intros i j a b. apply latest_first_lookup.
    by apply latest_first_take.
  - rewrite Hn. intros task_id d s Hd Hm Hout Hs.
    assert (Hall : summary d ∈ all).
    { rewrite Hperm. apply list_elem_of_fmap_2, Hmatching. by exists task_id. }
    rewrite <- (take_drop n all) in Hall, Hsorted.
    apply elem_of_app in Hall as [Hin|Hin]; [done|].
    by apply (latest_first_app (take n all) (drop n all)).
Qed.

(** X19: [GET /task/{task_id}/download] serves a file only for a task whose
    record says [success] and names an output file that is in the output
    directory, and then it serves that file as [video/mp4]; for such a task
    it always does. *)
Theorem download_serves_finished_artifacts_only (task_id : string) (w : world)
    (path media_type name : string) :
  (download_task_result task_id w).1 =
    Return (FileResponse path media_type name) <->
  ∃ d, (get_task task_id w).1 = Return (Some d) ∧ td_status d = SUCCESS ∧
       td_output_file d = Some path ∧ path ≠ "" ∧
       path ∈ fname <$> OUTPUT_DIR w ∧
       media_type = "video/mp4" ∧ name = path.
Proof.
  assert (Hdir : OUTPUT_DIR (get_task task_id w).2 = OUTPUT_DIR w).
  { unfold get_task. destruct (tasks w !! task_id); [done|].
    by destruct (TASKS_DIR w !! task_id). }
  unfold download_task_result, bind.
  destruct (get_task task_id w) as [[[d|]|e] w1] eqn:E; cbn [fst snd] in *;
    rewrite ?Hdir.
  - destruct (decide (td_status d = SUCCESS)) as [Hs|Hs].
    + rewrite (bool_decide_eq_true_2 _ Hs). cbn [negb].
      destruct (td_output_file d) as [f|] eqn:Ef.
      * case_bool_decide as Hf.
        { split; [discriminate|]. intros (d' & [= <-] & _ & Hp & Hne & _).
          rewrite Ef in Hp. congruence. }
        unfold gets, ret, raise. cbn [fst snd]. rewrite Hdir.
        case_bool_decide as Hd.
        { split.
          - intros [= <- <- <-]. by exists d.
          - intros (d' & [= <-] & _ & Hp & _ & _ & -> & ->).
            rewrite Ef in Hp. by injection Hp as ->. }
        split; [discriminate|].
        intros (d' & [= <-] & _ & Hp & _ & Hin & _).
        rewrite Ef in Hp. injection Hp as ->. done.
      * split; [discriminate|]. intros (d' & [= <-] & _ & Hp & _).
        rewrite Ef in Hp. discriminate.
    + rewrite (bool_decide_eq_false_2 _ Hs). cbn [negb].
      split; [discriminate|]. by intros (d' & [= <-] & Hs' & _).
  - split; [discriminate|]. by intros (d' & [=] & _).
  - split; [discriminate|]. by intros (d' & [=] & _).
Qed.

(** ** A run that succeeds, end to end *)













(** ** What a client sees after an eviction *)

Lemma get_task_same_record (task_id : string) (w w1 : world) :
  same_record task_id w w1 ->
  (get_task task_id w1).1 = (get_task task_id w).1 ∧
  OUTPUT_DIR (get_task task_id w1).2 = OUTPUT_DIR w1.
Proof.
  intros [H1 H2]. unfold get_task. rewrite H1, H2.
  destruct (tasks w !! task_id); [done|].
  by destruct (TASKS_DIR w !! task_id).
Qed.

(** X22: after its artifact was evicted, a replace-audio task still reports
    [success] and still names the artifact, while the download of it
    answers 404: the record and the directory disagree from then on. *)
Theorem evicted_replaced_audio_task_reports_success (task_id : string)
    (w : world) (d : task_data) :
  let name := "replaced_audio_" +:+ task_id +:+ ".mp4" in
  let w1 := (cleanup_old_files w).2 in
  (get_task task_id w).1 = Return (Some d) ->
  td_status d = SUCCESS -> td_output_file d = Some name ->
  (∀ e, e ∈ OUTPUT_DIR w -> fname e ≠ name ->
        split1_snd "_" (stem (fname e)) ≠ Some task_id) ->
  name ∉ fname <$> OUTPUT_DIR w1 ->
  (∃ view, (get_task_status task_id w1).1 = Return view ∧
           view_status view = SUCCESS ∧ view_output_file view = Some name) ∧
  (download_task_result task_id w1).1 =
    Raise (HTTPException 404 "Output file not found on disk").
Proof.
  intros name w1 Hget Hs Hout Hothers Hgone.
  assert (Hsame : same_record task_id w w1).
  { apply cleanup_old_files_same_record. intros e He.
    destruct (decide (fname e = name)) as [E|Hne]; [|by apply Hothers].
    rewrite E. unfold name.
    destruct (replaced_audio_name_task_id task_id) as [_ Hsplit].
    cbv zeta in Hsplit. rewrite Hsplit. intros [=Hbad].
    by apply (prefixed_differs "audio_" task_id). }
  destruct (get_task_same_record task_id w w1 Hsame) as [Hget1 Hdir1].
  rewrite Hget in Hget1.
  unfold get_task_status, download_task_result, bind, gets, ret, raise.
  destruct (get_task task_id w1) as [r w2]. cbn [fst snd] in *. subst r.
  split; [eexists; by repeat split|].
  rewrite Hs, Hout. rewrite (bool_decide_eq_true_2 _ eq_refl). cbn [negb].
  rewrite bool_decide_eq_false_2 by (unfold name; discriminate).
  rewrite Hdir1. by rewrite (bool_decide_eq_false_2 _ Hgone).
Qed.

Lemma evicted_replaced_audio_task_reports_success_witness :
  (download_task_result "A" (cleanup_old_files world_over_limit).2).1 =
    Raise (HTTPException 404 "Output file not found on disk").
Proof.
  assert (H : Forall (fun e =>
            fname e ≠ "replaced_audio_" +:+ "A" +:+ ".mp4" ->
            split1_snd "_" (stem (fname e)) ≠ Some "A")
          (OUTPUT_DIR world_over_limit))
    by (apply (bool_decide_unpack _); vm_compute; exact I).
  apply (evicted_replaced_audio_task_reports_success "A" world_over_limit
           (finished_task "A" "replace_audio" "replaced_audio_A.mp4")).
  - vm_compute. reflexivity.
  - reflexivity.
  - reflexivity.
  - exact (proj1 (Forall_forall _ _) H).
  - apply (bool_decide_unpack _). vm_compute. exact I.
Defined.
